(** * The bridge listener of [script.py]: scan, dedupe, relay, checkpoint

    A shallow embedding of the control loop of [BridgeOrchestrator.run]
    together with the two collaborators it drives ([EventScanner.scan_blocks]
    and [TransactionProcessor.process_lock_event]) and the state file read by
    [_load_state] and written by [_save_state].

    Python integers are unbounded, so block heights and configuration values
    are [Z].  The set [processed_transactions] is a [gset string].  The
    ledgers and the file system are outside the program: what they answer in
    one pass of the loop is given by a [World] record, and the calls the
    program makes to them are recorded, in order, in a trace of [Action]s. *)

From Stdlib Require Import ZArith Lia.
From stdpp Require Import gmap strings list.

Local Open Scope Z_scope.

(** ** Configuration and events *)

(** The three numeric settings of [ConfigManager] that the loop reads
    ([BLOCK_CONFIRMATIONS_REQUIRED], [SCAN_BATCH_SIZE],
    [POLL_INTERVAL_SECONDS]); each is [int(os.getenv(...))], any integer. *)
Record ConfigManager := {
  confirmations_required : Z;
  scan_batch_size : Z;
  poll_interval_seconds : Z
}.

(** A decoded [TokensLocked] log.  The loop identifies an event by
    [event['transactionHash'].hex()]; the field below holds that rendering. *)
Record LogReceipt := {
  transactionHash : string;
  blockNumber : Z;
  recipient : string;
  amount : Z
}.

#[global] Instance LogReceipt_eq_dec : EqDecision LogReceipt.
Proof. solve_decision. Defined.

(** ** The outside world *)

(** The three [except] clauses of [scan_blocks]. *)
Inductive ReadError := BlockNotFound | RequestTimeout | OtherException.

(** What [create_filter(...).get_all_entries()] does for a block range. *)
Inductive ReadResult :=
| Entries (events : list LogReceipt)
| ReadRaises (err : ReadError).

(** What happens inside the [try] of [process_lock_event]: the mint
    transaction is built and signed, or one of the calls raises. *)
Inductive MintAttempt := MintSigned | MintRaises.

(** What happens inside the [try] of [_save_state]: the document is written,
    [open] raises [IOError], or the dump raises it after the file has been
    truncated. *)
Inductive IoOutcome := Written | OpenFails | DumpFails.

(** Contents of [scanner_state.json]: absent, unreadable, or a document with
    the two keys. *)
Inductive StateFile :=
| NoFile
| Garbled
| StateDoc (last : option Z) (txs : list string).

(** The answers of the collaborators during one pass of the loop.
    [block_number = None] stands for a read of [eth.block_number] that raises.
    [mint k ev] is the outcome of the [k]-th call (counted from 0 within the
    pass) of [process_lock_event], made on [ev]. *)
Record World := {
  block_number : option Z;
  get_all_entries : Z → Z → ReadResult;
  mint : nat → LogReceipt → MintAttempt;
  state_file_io : IoOutcome
}.

(** The calls made to the outside world.  [ProcessLockEvent] carries the
    value returned; [WriteStateFile] is a dump that went through. *)
Inductive Action :=
| ReadBlockNumber
| GetAllEntries (from_block to_block : Z)
| ProcessLockEvent (event : LogReceipt) (success : bool)
| WriteStateFile (last : option Z) (txs : gset string)
| Sleep (seconds : Z).

#[global] Instance Action_eq_dec : EqDecision Action.
Proof. solve_decision. Defined.

Definition is_submit (a : Action) : bool :=
  match a with ProcessLockEvent _ _ => true | _ => false end.

Definition is_sleep (a : Action) : bool :=
  match a with Sleep _ => true | _ => false end.

(** [time.sleep] keeps its duration as a signed 64-bit count of nanoseconds:
    the longest sleep it accepts is 9223372036 s. *)
Definition longest_sleep : Z := 9223372036.

(** [time.sleep] raises [ValueError] when the duration is negative and
    [OverflowError] when it is longer than [longest_sleep]. *)
Definition sleep_raises (seconds : Z) : bool :=
  (seconds <? 0) || (longest_sleep <? seconds).

(** ** EventScanner *)

Definition scan_blocks (world : World) (from_block to_block : Z)
  : list LogReceipt * list Action :=
  if from_block >? to_block then ([], [])
  else
    match get_all_entries world from_block to_block with
    | Entries events => (events, [GetAllEntries from_block to_block])
    | ReadRaises BlockNotFound => ([], [GetAllEntries from_block to_block])
    | ReadRaises RequestTimeout => ([], [GetAllEntries from_block to_block])
    | ReadRaises OtherException => ([], [GetAllEntries from_block to_block])
    end.

(** ** TransactionProcessor *)

Definition process_lock_event (attempt : MintAttempt) : bool :=
  match attempt with
  | MintSigned => true
  | MintRaises => false
  end.

(** ** BridgeOrchestrator *)

Record BridgeOrchestrator := {
  last_processed_block : option Z;
  processed_transactions : gset string;
  state_file : StateFile
}.

Definition _load_state (file : StateFile) : option Z * list string :=
  match file with
  | StateDoc last txs => (last, txs)
  | Garbled => (None, [])
  | NoFile => (None, [])
  end.

(** [__init__], as far as the state is concerned. *)
Definition __init__ (file : StateFile) : BridgeOrchestrator :=
  let state := _load_state file in
  {| last_processed_block := state.1;
     processed_transactions := list_to_set state.2;
     state_file := file |}.

(** [list(self.processed_transactions)] lists the set in an order of
    Python's choosing; [elements] stands for that list.  The program reads
    the list back only through [set(...)] in [__init__]. *)
Definition _save_state (io : IoOutcome) (self : BridgeOrchestrator)
  : BridgeOrchestrator * list Action :=
  let last := last_processed_block self in
  let txs := processed_transactions self in
  match io with
  | Written =>
      ({| last_processed_block := last;
          processed_transactions := txs;
          state_file := StateDoc last (elements txs) |},
       [WriteStateFile last txs])
  | OpenFails => (self, [])
  | DumpFails =>
      ({| last_processed_block := last;
          processed_transactions := txs;
          state_file := Garbled |}, [])
  end.

(** The code before [while True]: a state without a height takes the current
    confirmed head.  [None] is the exception of the head read leaving [run]. *)
Definition run_prologue (config : ConfigManager) (head : option Z)
    (self : BridgeOrchestrator) : option BridgeOrchestrator :=
  match last_processed_block self with
  | Some _ => Some self
  | None =>
      match head with
      | Some h =>
          Some {| last_processed_block := Some (h - confirmations_required config);
                  processed_transactions := processed_transactions self;
                  state_file := state_file self |}
      | None => None
      end
  end.

(** The range computed at the top of the loop body; [None] is the branch that
    waits. *)
Definition next_range (config : ConfigManager) (latest_block last : Z)
  : option (Z * Z) :=
  let to_block := latest_block - confirmations_required config in
  let from_block := last + 1 in
  if from_block >? to_block then None
  else
    let to_block :=
      if to_block >? from_block + scan_batch_size config - 1
      then from_block + scan_batch_size config - 1
      else to_block in
    Some (from_block, to_block).

Definition submit_calls (made : list Action) : nat :=
  length (filter (λ a, is_submit a = true) made).

(** The body of [for event in events]. *)
Definition relay_event (world : World)
    (acc : gset string * list Action) (event : LogReceipt)
  : gset string * list Action :=
  let tx_hash_hex := transactionHash event in
  if decide (tx_hash_hex ∈ acc.1) then acc
  else
    let success := process_lock_event (mint world (submit_calls acc.2) event) in
    (if success then acc.1 ∪ {[tx_hash_hex]} else acc.1,
     acc.2 ++ [ProcessLockEvent event success]).

Definition relay_events (world : World) (events : list LogReceipt)
    (processed : gset string) : gset string * list Action :=
  foldl (relay_event world) (processed, []) events.

(** How one pass of the loop body ends: the orchestrator, the calls made, and
    whether an exception left [run] (and with it the process). *)
Record Pass := {
  after : BridgeOrchestrator;
  trace : list Action;
  exited : bool
}.

(** [except Exception]: sleep twice the poll interval.  A [time.sleep] that
    raises here is not caught by anything in [run]. *)
Definition except_handler (config : ConfigManager) (self : BridgeOrchestrator)
    (made : list Action) : Pass :=
  let seconds := poll_interval_seconds config * 2 in
  {| after := self;
     trace := made ++ [Sleep seconds];
     exited := sleep_raises seconds |}.

(** [time.sleep(self.config.poll_interval_seconds)] inside the [try]. *)
Definition sleep_poll (config : ConfigManager) (self : BridgeOrchestrator)
    (made : list Action) : Pass :=
  let seconds := poll_interval_seconds config in
  if sleep_raises seconds
  then except_handler config self (made ++ [Sleep seconds])
  else {| after := self; trace := made ++ [Sleep seconds]; exited := false |}.

(** One pass of the body of [while True]. *)
Definition iteration (config : ConfigManager) (world : World)
    (self : BridgeOrchestrator) : Pass :=
  match block_number world with
  | None => except_handler config self [ReadBlockNumber]
  | Some latest_block =>
      match last_processed_block self with
      | None => except_handler config self [ReadBlockNumber]
      | Some last =>
          match next_range config latest_block last with
          | None => sleep_poll config self [ReadBlockNumber]
          | Some (from_block, to_block) =>
              let scanned := scan_blocks world from_block to_block in
              let relayed :=
                relay_events world scanned.1 (processed_transactions self) in
              let self1 :=
                {| last_processed_block := Some to_block;
                   processed_transactions := relayed.1;
                   state_file := state_file self |} in
              let saved := _save_state (state_file_io world) self1 in
              let made :=
                [ReadBlockNumber] ++ scanned.2 ++ relayed.2 ++ saved.2 in
              if to_block - from_block <? scan_batch_size config - 1
              then sleep_poll config saved.1 made
              else {| after := saved.1; trace := made; exited := false |}
          end
      end
  end.

(** The loop, run for as many passes as there are [World] records, or until
    an exception leaves it. *)
Fixpoint run_loop (config : ConfigManager) (worlds : list World)
    (self : BridgeOrchestrator) : Pass :=
  match worlds with
  | [] => {| after := self; trace := []; exited := false |}
  | world :: rest =>
      let step := iteration config world self in
      if exited step then step
      else
        let later := run_loop config rest (after step) in
        {| after := after later;
           trace := trace step ++ trace later;
           exited := exited later |}
  end.

(** [run] from its second statement on, that is once
    [self.source_connector.get_web3()] has returned (the whole method is
    [BridgeOrchestrator_run] below): [head] answers the read of the
    prologue. *)
Definition run (config : ConfigManager) (head : option Z) (worlds : list World)
    (self : BridgeOrchestrator) : option Pass :=
  match run_prologue config head self with
  | Some self0 => Some (run_loop config worlds self0)
  | None => None
  end.

(** ** Predicates on runs *)

(** The per-event path taken twice in a row, from a given processed set. *)
Definition relay_twice (world : World) (processed : gset string)
    (first second : LogReceipt) : gset string * list Action :=
  relay_event world (relay_event world (processed, []) first) second.

Definition submits (tx : string) (a : Action) : bool :=
  match a with
  | ProcessLockEvent event _ => bool_decide (transactionHash event = tx)
  | _ => false
  end.

(** How many times [process_lock_event] was called on an event with
    identifier [tx]. *)
Definition count_submits (tx : string) (made : list Action) : nat :=
  length (filter (λ a, submits tx a = true) made).

(** The events for which a call of [process_lock_event] returned [True]. *)
Definition relayed_events (made : list Action) : list LogReceipt :=
  omap (λ a, match a with
             | ProcessLockEvent event true => Some event
             | _ => None
             end) made.

(** Every identifier in [txs] is that of a relayed event of [history] whose
    block height is at most the height [last]. *)
Definition covered (history : list LogReceipt) (last : option Z)
    (txs : gset string) : Prop :=
  ∀ tx, tx ∈ txs →
    ∃ event height,
      event ∈ history ∧ transactionHash event = tx ∧
      last = Some height ∧ blockNumber event ≤ height.

(** The contract of the ledger's log read: the entries returned for a block
    range lie in that range. *)
Definition honours_range (world : World) : Prop :=
  ∀ from_block to_block events,
    get_all_entries world from_block to_block = Entries events →
    ∀ event, event ∈ events →
      from_block ≤ blockNumber event ∧ blockNumber event ≤ to_block.

(** ** Sample data

    The defaults of [ConfigManager], one event, and a few worlds. *)

Definition default_config : ConfigManager :=
  {| confirmations_required := 12;
     scan_batch_size := 100;
     poll_interval_seconds := 10 |}.

Definition lock_event (tx : string) (height : Z) : LogReceipt :=
  {| transactionHash := tx; blockNumber := height;
     recipient := "0xrecipient"; amount := 5 |}.

(** A source ledger at height [head] whose log read answers [read] whatever
    the range, and a destination ledger on which every mint attempt ends as
    [attempt]. *)
Definition stub (head : Z) (read : ReadResult) (attempt : MintAttempt)
  : World :=
  {| block_number := Some head;
     get_all_entries := λ _ _, read;
     mint := λ _ _, attempt;
     state_file_io := Written |}.

(** A source ledger at height [head] holding the logs [logs]: a read returns
    those of the requested range. *)
Definition ledger (head : Z) (logs : list LogReceipt) (attempt : MintAttempt)
  : World :=
  {| block_number := Some head;
     get_all_entries := λ from_block to_block,
       Entries (filter (λ e, from_block ≤ blockNumber e ∧
                             blockNumber e ≤ to_block) logs);
     mint := λ _ _, attempt;
     state_file_io := Written |}.

(** A source node that cannot be reached. *)
Definition unreachable : World :=
  {| block_number := None;
     get_all_entries := λ _ _, ReadRaises OtherException;
     mint := λ _ _, MintRaises;
     state_file_io := OpenFails |}.

Definition at_height (last : Z) : BridgeOrchestrator :=
  {| last_processed_block := Some last;
     processed_transactions := ∅;
     state_file := NoFile |}.

(** The calls of a pass that scans [(from_block, to_block)], up to and
    including the save, and the pause that follows them. *)
Definition batch_calls (world : World) (processed : gset string)
    (from_block to_block : Z) : list Action :=
  let scanned := scan_blocks world from_block to_block in
  let relayed := relay_events world scanned.1 processed in
  [ReadBlockNumber] ++ scanned.2 ++ relayed.2 ++
  match state_file_io world with
  | Written => [WriteStateFile (Some to_block) relayed.1]
  | OpenFails => []
  | DumpFails => []
  end.

Definition batch_pause (config : ConfigManager) (from_block to_block : Z)
  : list Action :=
  if to_block - from_block <? scan_batch_size config - 1
  then
    if sleep_raises (poll_interval_seconds config)
    then [Sleep (poll_interval_seconds config);
          Sleep (poll_interval_seconds config * 2)]
    else [Sleep (poll_interval_seconds config)]
  else [].

(** ** Further observations of a trace *)

Definition succeeds (tx : string) (a : Action) : bool :=
  match a with
  | ProcessLockEvent event true => bool_decide (transactionHash event = tx)
  | _ => false
  end.

(** How many calls of [process_lock_event] on an event with identifier [tx]
    returned [True]. *)
Definition successes (tx : string) (made : list Action) : nat :=
  length (filter (λ a, succeeds tx a = true) made).

(** The events handed to [process_lock_event], in order. *)
Definition submitted (made : list Action) : list LogReceipt :=
  omap (λ a, match a with
             | ProcessLockEvent event _ => Some event
             | _ => None
             end) made.

(** The block ranges read from the ledger, in order. *)
Definition reads (made : list Action) : list (Z * Z) :=
  omap (λ a, match a with
             | GetAllEntries from_block to_block => Some (from_block, to_block)
             | _ => None
             end) made.


(** Ranges that follow one another without gap or overlap, the first one
    starting right after [last]. *)
Fixpoint chained (last : Z) (ranges : list (Z * Z)) : Prop :=
  match ranges with
  | [] => True
  | (from_block, to_block) :: rest =>
      from_block = last + 1 ∧ from_block ≤ to_block ∧ chained to_block rest
  end.

(** The upper bound of the last range, [last] when there is none. *)
Definition chain_end (last : Z) (ranges : list (Z * Z)) : Z :=
  foldl (λ _ range, range.2) last ranges.

(** The identifiers of the events relayed with success. *)
Definition relayed_ids (made : list Action) : gset string :=
  list_to_set (transactionHash <$> relayed_events made).

(** ** ConfigManager: loading and validation *)

(** The attributes that [ConfigManager.__init__] sets: the five strings read
    with [os.getenv] ([None] when the variable is not set) and the three
    numbers. *)
Record LoadedConfig := {
  source_rpc_url : option string;
  dest_rpc_url : option string;
  source_bridge_address : option string;
  dest_bridge_address : option string;
  listener_private_key : option string;
  numbers : ConfigManager
}.

Definition required_vars : list string :=
  ["source_rpc_url"; "dest_rpc_url"; "source_bridge_address";
   "dest_bridge_address"; "listener_private_key"].

(** [getattr(self, var)] on the names of [required_vars]. *)
Definition getattr (self : LoadedConfig) (var : string) : option string :=
  if decide (var = "source_rpc_url") then source_rpc_url self
  else if decide (var = "dest_rpc_url") then dest_rpc_url self
  else if decide (var = "source_bridge_address") then source_bridge_address self
  else if decide (var = "dest_bridge_address") then dest_bridge_address self
  else if decide (var = "listener_private_key") then listener_private_key self
  else None.

(** The truth value of such an attribute: [None] and [''] are false. *)
Definition truthy (value : option string) : bool :=
  match value with
  | Some text => negb (bool_decide (text = ""))
  | None => false
  end.

Definition missing_vars (self : LoadedConfig) : list string :=
  filter (λ var, truthy (getattr self var) = false) required_vars.

(** The two ways [ConfigManager()] raises [ValueError]: [int] on a setting
    that is not a number, and [validate], with its message. *)
Inductive ConfigError :=
| InvalidLiteral (text : string)
| MissingVariables (message : string).

(** [validate]: [None] when it returns. *)
Definition validate (self : LoadedConfig) : option ConfigError :=
  match missing_vars self with
  | [] => None
  | missing =>
      Some (MissingVariables
              ("Missing required environment variables: "
               ++ String.concat ", " missing))
  end.

(** [ConfigManager.__init__] on the environment left by [load_dotenv()].
    The builtin [int] is an argument: [int text = None] when [int(text)]
    raises [ValueError]. *)
Definition ConfigManager__init__ (int : string → option Z)
    (environ : gmap string string) : LoadedConfig + ConfigError :=
  let getenv (name : string) := environ !! name in
  let getenv_or (name fallback : string) := default fallback (environ !! name) in
  let confirmations := getenv_or "BLOCK_CONFIRMATIONS_REQUIRED" "12" in
  let batch := getenv_or "SCAN_BATCH_SIZE" "100" in
  let poll := getenv_or "POLL_INTERVAL_SECONDS" "10" in
  match int confirmations with
  | None => inr (InvalidLiteral confirmations)
  | Some confirmations_required =>
    match int batch with
    | None => inr (InvalidLiteral batch)
    | Some scan_batch_size =>
      match int poll with
      | None => inr (InvalidLiteral poll)
      | Some poll_interval_seconds =>
          let self :=
            {| source_rpc_url := getenv "SOURCE_CHAIN_RPC_URL";
               dest_rpc_url := getenv "DESTINATION_CHAIN_RPC_URL";
               source_bridge_address := getenv "SOURCE_BRIDGE_CONTRACT_ADDRESS";
               dest_bridge_address :=
                 getenv "DESTINATION_BRIDGE_CONTRACT_ADDRESS";
               listener_private_key := getenv "LISTENER_PRIVATE_KEY";
               numbers :=
                 {| confirmations_required := confirmations_required;
                    scan_batch_size := scan_batch_size;
                    poll_interval_seconds := poll_interval_seconds |} |} in
          match validate self with
          | Some error => inr error
          | None => inl self
          end
      end
    end
  end.

(** The environment variable behind each required attribute. *)
Definition attribute_sources : list (string * string) :=
  [("source_rpc_url", "SOURCE_CHAIN_RPC_URL");
   ("dest_rpc_url", "DESTINATION_CHAIN_RPC_URL");
   ("source_bridge_address", "SOURCE_BRIDGE_CONTRACT_ADDRESS");
   ("dest_bridge_address", "DESTINATION_BRIDGE_CONTRACT_ADDRESS");
   ("listener_private_key", "LISTENER_PRIVATE_KEY")].

(** A variable that is not set, or set to the empty string. *)
Definition unset_or_empty (environ : gmap string string) (name : string)
  : Prop :=
  environ !! name = None ∨ environ !! name = Some "".

(** ** The payload validators *)

(** The values a payload can be. *)
#[warnings="-register-all"]
Inductive PyValue :=
| PyNone
| PyBool (b : bool)
| PyInt (n : Z)
| PyStr (text : string)
| PyList (items : list PyValue)
| PyDict (entries : gmap string PyValue).

Definition validate_payload_3156 (payload : PyValue) : bool :=
  match payload with
  | PyDict entries =>
      let required_keys := ["id"; "timestamp"; "data"] in
      forallb (λ key, bool_decide (is_Some (entries !! key))) required_keys
  | _ => false
  end.

Definition validate_payload_7052 (payload : PyValue) : bool :=
  match payload with
  | PyDict entries =>
      let required_keys := ["id"; "timestamp"; "data"] in
      forallb (λ key, bool_decide (is_Some (entries !! key))) required_keys
  | _ => false
  end.

(** A stand-in for [int] in the examples: the literals made of ASCII digits
    with an optional sign, which [int] reads as written here. *)
Fixpoint digits_value (text : string) (acc : Z) : option Z :=
  match text with
  | EmptyString => Some acc
  | String c rest =>
      let code := Z.of_nat (Ascii.nat_of_ascii c) in
      if (48 <=? code) && (code <=? 57)
      then digits_value rest (10 * acc + (code - 48))
      else None
  end.

Definition decimal_literal (text : string) : option Z :=
  match text with
  | EmptyString => None
  | String sign rest =>
      if decide (rest = "") then digits_value text 0
      else if decide (sign = Ascii.ascii_of_nat 45)
      then Z.opp <$> digits_value rest 0
      else if decide (sign = Ascii.ascii_of_nat 43)
      then digits_value rest 0
      else digits_value text 0
  end.

(** ** fasta.py

    A Python [str] is the sequence of its code points, a [list N].  A stream
    is the list of the lines it yields when iterated, and a generator is the
    list of the values it yields. *)

(** [str.isspace] on one code point: the characters [str.strip] removes. *)
Definition isspace (c : N) : bool :=
  (((9 <=? c) && (c <=? 13)) || ((28 <=? c) && (c <=? 32)) ||
   (c =? 133) || (c =? 160) || (c =? 5760) ||
   ((8192 <=? c) && (c <=? 8202)) || (c =? 8232) || (c =? 8233) ||
   (c =? 8239) || (c =? 8287) || (c =? 12288))%N.

Fixpoint lstrip (text : list N) : list N :=
  match text with
  | [] => []
  | c :: rest => if isspace c then lstrip rest else text
  end.

Definition rstrip (text : list N) : list N := reverse (lstrip (reverse text)).

Definition strip (text : list N) : list N := rstrip (lstrip text).

(** [line.startswith('>')]. *)
Definition startswith_gt (line : list N) : bool :=
  match line with
  | c :: _ => (c =? 62)%N
  | [] => false
  end.

(** The local variables of [_parse_fasta_stream] and what it has yielded so
    far. *)
Record FastaParser := {
  header : option (list N);
  sequence_parts : list (list N);
  yielded : list (list N * list N)
}.

(** The body of [for line in stream]. *)
Definition fasta_line (st : FastaParser) (line : list N) : FastaParser :=
  let line := strip line in
  match line with
  | [] => st
  | c :: rest =>
      if (c =? 62)%N then
        {| header := Some (strip rest);
           sequence_parts := [];
           yielded :=
             yielded st ++
             match header st with
             | Some h => [(h, concat (sequence_parts st))]
             | None => []
             end |}
      else
        match header st with
        | Some _ =>
            {| header := header st;
               sequence_parts := sequence_parts st ++ [line];
               yielded := yielded st |}
        | None => st
        end
  end.

(** The code after the loop: the last record. *)
Definition fasta_finish (st : FastaParser) : list (list N * list N) :=
  yielded st ++
  match header st with
  | Some h => [(h, concat (sequence_parts st))]
  | None => []
  end.

Definition fasta_start : FastaParser :=
  {| header := None; sequence_parts := []; yielded := [] |}.

Definition _parse_fasta_stream (stream : list (list N))
  : list (list N * list N) :=
  fasta_finish (foldl fasta_line fasta_start stream).

(** What [parse_fasta] is given: a path or an open stream. *)
Inductive FastaSource :=
| FastaPath (path : string)
| FastaStream (stream : list (list N)).

(** [parse_fasta], over the files that exist (each with its lines); [None]
    is the [FileNotFoundError] of [open]. *)
Definition parse_fasta (files : gmap string (list (list N)))
    (source : FastaSource) : option (list (list N * list N)) :=
  match source with
  | FastaPath path =>
      match files !! path with
      | Some f => Some (_parse_fasta_stream f)
      | None => None
      end
  | FastaStream stream => Some (_parse_fasta_stream stream)
  end.

(** A line whose stripped form starts with ['>']. *)
Definition is_header_line (line : list N) : bool := startswith_gt (strip line).

(** The code points of an ASCII text, for writing examples. *)
Fixpoint code_points (text : string) : list N :=
  match text with
  | EmptyString => []
  | String c rest => Ascii.N_of_ascii c :: code_points rest
  end.

(** A text that does not begin with a character [str.strip] removes, and
    one that neither begins nor ends with one. *)
Definition starts_clean (text : list N) : Prop :=
  match text with
  | c :: _ => isspace c = false
  | [] => True
  end.

Definition tidy (text : list N) : Prop :=
  starts_clean text ∧ starts_clean (reverse text).

(** A record whose header and sequence are tidy and whose sequence does
    not start with ['>']; a parser state in which everything is so. *)
Definition clean_record (record : list N * list N) : Prop :=
  tidy record.1 ∧ tidy record.2 ∧ startswith_gt record.2 = false.

Definition fasta_clean (st : FastaParser) : Prop :=
  (∀ h, header st = Some h → tidy h) ∧
  Forall (λ part, part ≠ [] ∧ tidy part ∧ startswith_gt part = false)
    (sequence_parts st) ∧
  Forall clean_record (yielded st).

(** The state [st] with the records [records] yielded before its own. *)
Definition fasta_after (records : list (list N * list N)) (st : FastaParser)
  : FastaParser :=
  {| header := header st;
     sequence_parts := sequence_parts st;
     yielded := records ++ yielded st |}.

(** ** BlockchainConnector *)

(** [self.web3] is [None] or a [Web3] instance; instances are told apart by
    a number. *)
Record BlockchainConnector := {
  rpc_url : string;
  web3 : option nat
}.

(** The node behind [rpc_url]: what it answers to the call made at step [k]
    (the number of calls made before).  [is_connected k] is the answer of
    [is_connected()], [chain_id k = None] a read of [eth.chain_id] that
    raises. *)
Record Node := {
  is_connected : nat → bool;
  chain_id : nat → option Z
}.

Inductive ConnectorCall :=
| NewProvider (instance : nat)
| IsConnected (instance : nat) (answer : bool)
| ReadChainId (instance : nat) (answer : option Z).

#[global] Instance ConnectorCall_eq_dec : EqDecision ConnectorCall.
Proof. solve_decision. Defined.

(** What [connect] raises: the [ConnectionError] of its [else] branch, or
    what the read of the chain id raised. *)
Inductive ConnectError := NotConnected | RequestFailed.

(** A connector and the calls made through it so far. *)
Record Connection := {
  connector : BlockchainConnector;
  calls : list ConnectorCall
}.

Definition connect (node : Node) (c : Connection)
  : Connection * option ConnectError :=
  let instance := length (calls c) in
  let self := {| rpc_url := rpc_url (connector c); web3 := Some instance |} in
  let calls1 := calls c ++ [NewProvider instance] in
  let answer := is_connected node (length calls1) in
  let calls2 := calls1 ++ [IsConnected instance answer] in
  if answer then
    let id := chain_id node (length calls2) in
    let calls3 := calls2 ++ [ReadChainId instance id] in
    ({| connector := self; calls := calls3 |},
     match id with Some _ => None | None => Some RequestFailed end)
  else ({| connector := self; calls := calls2 |}, Some NotConnected).

(** [get_web3]: the value of [self.web3] that is returned, or what
    [connect] raised. *)
Definition get_web3 (node : Node) (c : Connection)
  : Connection * (option nat + ConnectError) :=
  let reconnect (c : Connection) :=
    let connected := connect node c in
    match connected.2 with
    | Some error => (connected.1, inr error)
    | None => (connected.1, inl (web3 (connector connected.1)))
    end in
  match web3 (connector c) with
  | None => reconnect c
  | Some instance =>
      let answer := is_connected node (length (calls c)) in
      let c1 := {| connector := connector c;
                   calls := calls c ++ [IsConnected instance answer] |} in
      if answer then (c1, inl (Some instance)) else reconnect c1
  end.

Definition is_new_provider (call : ConnectorCall) : bool :=
  match call with NewProvider _ => true | _ => false end.

(** How many [Web3] instances were created. *)
Definition new_providers (made : list ConnectorCall) : nat :=
  length (filter (λ call, is_new_provider call = true) made).

(** ** BridgeOrchestrator.run as a whole

    [w3_source = self.source_connector.get_web3()] comes first: what it
    raises leaves [run] before the state is looked at and before any pass.
    The instance it returns is the one every head read of [run] goes to;
    the answers of those reads are [head] and the [block_number] of each
    [World]. *)
Definition BridgeOrchestrator_run (node : Node) (source : Connection)
    (config : ConfigManager) (head : option Z) (worlds : list World)
    (self : BridgeOrchestrator)
  : Connection * (option Pass + ConnectError) :=
  let connected := get_web3 node source in
  match connected.2 with
  | inl _ => (connected.1, inl (run config head worlds self))
  | inr error => (connected.1, inr error)
  end.

(** A node that answers every call, one that answers none, and a connector
    that [connect] has brought up. *)
Definition live_node : Node :=
  {| is_connected := λ _, true; chain_id := λ _, Some 1 |}.

Definition dead_node : Node :=
  {| is_connected := λ _, false; chain_id := λ _, None |}.

Definition source_connection : Connection :=
  {| connector := {| rpc_url := "http://source"; web3 := Some 0%nat |};
     calls := [NewProvider 0; IsConnected 0 true; ReadChainId 0 (Some 1)] |}.

(** ** The loop on sample data *)

(** A pass over [(601, 700)] that finds one event, relays it and saves. *)
Example pass_relays_one_event :
  let event := lock_event "0xabc" 650 in
  iteration default_config (ledger 712 [event] MintSigned) (at_height 600)
  = {| after := {| last_processed_block := Some 700;
                   processed_transactions := {[ "0xabc" ]};
                   state_file := StateDoc (Some 700) ["0xabc"] |};
       trace := [ReadBlockNumber; GetAllEntries 601 700;
                 ProcessLockEvent event true;
                 WriteStateFile (Some 700) {[ "0xabc" ]}];
       exited := false |}.
Proof. by vm_compute. Qed.

(** A process started on the state file [{600, ["0xabc"]}] resumes at 601
    and does not relay an event with that identifier again. *)
Example restart_resumes_and_skips :
  let event := lock_event "0xabc" 650 in
  let self := __init__ (StateDoc (Some 600) ["0xabc"]) in
  run_prologue default_config (Some 712) self = Some self ∧
  trace (iteration default_config (ledger 712 [event] MintSigned) self)
  = [ReadBlockNumber; GetAllEntries 601 700;
     WriteStateFile (Some 700) {[ "0xabc" ]}].
Proof. by vm_compute. Qed.

(** A head read that raises: nothing but the handler's sleep. *)
Example pass_with_unreachable_node :
  iteration default_config unreachable (at_height 600)
  = {| after := at_height 600;
       trace := [ReadBlockNumber; Sleep 20];
       exited := false |}.
Proof. by vm_compute. Qed.

(** ** The range computed by the loop *)

Section Range.
Variable config : ConfigManager.

Lemma next_range_Some latest_block last from_block to_block :
  next_range config latest_block last = Some (from_block, to_block) ↔
  from_block = last + 1 ∧
  last + 1 ≤ latest_block - confirmations_required config ∧
  to_block = Z.min (latest_block - confirmations_required config)
                   (from_block + scan_batch_size config - 1).
Proof.
  unfold next_range.
  destruct (Z.gtb_spec (last + 1)
              (latest_block - confirmations_required config)) as [Hw|Hw].
  - split; [discriminate | lia].
  - destruct (Z.gtb_spec (latest_block - confirmations_required config)
                (last + 1 + scan_batch_size config - 1)) as [Hc|Hc];
      (split; [intros [= <- <-] | intros (-> & _ & ->); f_equal; f_equal]);
      lia.
Qed.

Lemma next_range_None latest_block last :
  next_range config latest_block last = None ↔
  last + 1 > latest_block - confirmations_required config.
Proof.
  unfold next_range.
  destruct (Z.gtb_spec (last + 1)
              (latest_block - confirmations_required config));
    split; (done || lia).
Qed.

Lemma next_range_upper latest_block last from_block to_block :
  next_range config latest_block last = Some (from_block, to_block) →
  to_block ≤ latest_block - confirmations_required config.
Proof. rewrite next_range_Some. lia. Qed.


Lemma next_range_advances latest_block last from_block to_block :
  0 ≤ scan_batch_size config →
  next_range config latest_block last = Some (from_block, to_block) →
  last ≤ to_block.
Proof. intros Hb. rewrite next_range_Some. lia. Qed.
End Range.

Create HintDb bridge discriminated.
#[global] Hint Resolve next_range_upper next_range_advances : bridge.

(** ** What each part of a pass leaves in the trace *)

(** Membership of an action in a trace that is written out: split it into
    the equations with the listed actions. *)
Ltac not_in_trace H :=
  repeat first
    [ apply elem_of_nil in H
    | apply elem_of_cons in H as [H|H]; [try discriminate H|] ].

Lemma scan_blocks_trace world from_block to_block :
  (scan_blocks world from_block to_block).2 =
  if from_block >? to_block then [] else [GetAllEntries from_block to_block].
Proof.
  unfold scan_blocks. destruct (from_block >? to_block); [done|].
  by destruct (get_all_entries world from_block to_block) as [evs|[]].
Qed.

Lemma scan_blocks_events world from_block to_block e :
  e ∈ (scan_blocks world from_block to_block).1 →
  ∃ events, get_all_entries world from_block to_block = Entries events ∧
            e ∈ events.
Proof.
  unfold scan_blocks. destruct (from_block >? to_block); simpl.
  - by intros ?%elem_of_nil.
  - destruct (get_all_entries world from_block to_block) as [evs|[]]; simpl;
      try by intros ?%elem_of_nil.
    eauto.
Qed.

Lemma relay_event_trace world acc event :
  ∃ more, (relay_event world acc event).2 = acc.2 ++ more ∧
          Forall (λ a, is_submit a = true) more.
Proof.
  unfold relay_event. case_decide.
  - exists []. by rewrite app_nil_r.
  - eexists [_]. split; [done|]. by repeat constructor.
Qed.

Lemma foldl_relay_event_trace world events acc :
  ∃ more, (foldl (relay_event world) acc events).2 = acc.2 ++ more ∧
          Forall (λ a, is_submit a = true) more.
Proof.
  revert acc. induction events as [|e events IH]; intros acc; simpl.
  - exists []. by rewrite app_nil_r.
  - destruct (IH (relay_event world acc e)) as (m2 & -> & H2).
    destruct (relay_event_trace world acc e) as (m1 & -> & H1).
    exists (m1 ++ m2). rewrite <-(assoc_L (++)). split; [done|].
    by apply Forall_app.
Qed.

Lemma relay_events_trace world events processed a :
  a ∈ (relay_events world events processed).2 → is_submit a = true.
Proof.
  destruct (foldl_relay_event_trace world events (processed, []))
    as (more & Heq & Hall).
  unfold relay_events. rewrite Heq. simpl.
  rewrite Forall_forall in Hall. apply Hall.
Qed.

Lemma _save_state_trace io self :
  (_save_state io self).2 =
  match io with
  | Written =>
      [WriteStateFile (last_processed_block self) (processed_transactions self)]
  | OpenFails => []
  | DumpFails => []
  end.
Proof. by destruct io. Qed.

Lemma _save_state_keeps io self :
  last_processed_block (_save_state io self).1 = last_processed_block self ∧
  processed_transactions (_save_state io self).1 = processed_transactions self.
Proof. by destruct io. Qed.





Lemma sleep_poll_shape config self made :
  after (sleep_poll config self made) = self ∧
  trace (sleep_poll config self made) =
    made ++
    (if sleep_raises (poll_interval_seconds config)
     then [Sleep (poll_interval_seconds config);
           Sleep (poll_interval_seconds config * 2)]
     else [Sleep (poll_interval_seconds config)]).
Proof.
  unfold sleep_poll, except_handler.
  destruct (sleep_raises (poll_interval_seconds config)); simpl; [|done].
  by rewrite <-(assoc_L (++)).
Qed.

Lemma batch_calls_inv world processed from_block to_block a :
  a ∈ batch_calls world processed from_block to_block →
  a = ReadBlockNumber ∨
  (a = GetAllEntries from_block to_block ∧ from_block ≤ to_block) ∨
  (is_submit a = true ∧
   a ∈ (relay_events world (scan_blocks world from_block to_block).1
          processed).2) ∨
  (a = WriteStateFile (Some to_block)
         (relay_events world (scan_blocks world from_block to_block).1
            processed).1 ∧
   state_file_io world = Written).
Proof.
  unfold batch_calls. cbn zeta. rewrite scan_blocks_trace, !elem_of_app.
  intros [Hin|[Hin|[Hin|Hin]]].
  - left. by apply list_elem_of_singleton in Hin.
  - right. left. destruct (Z.gtb_spec from_block to_block);
      [by not_in_trace Hin|].
    by apply list_elem_of_singleton in Hin.
  - right. right. left. eauto using relay_events_trace.
  - right. right. right.
    destruct (state_file_io world); by not_in_trace Hin.
Qed.


Lemma batch_pause_sleeps config from_block to_block a :
  a ∈ batch_pause config from_block to_block → is_sleep a = true.
Proof.
  unfold batch_pause. intros Hin.
  destruct (to_block - from_block <? scan_batch_size config - 1);
    [destruct (sleep_raises (poll_interval_seconds config))|];
    not_in_trace Hin; by subst.
Qed.

(** The pass that gets as far as a range. *)
Lemma iteration_batch config world self latest_block last from_block to_block :
  block_number world = Some latest_block →
  last_processed_block self = Some last →
  next_range config latest_block last = Some (from_block, to_block) →
  let pass := iteration config world self in
  last_processed_block (after pass) = Some to_block ∧
  processed_transactions (after pass) =
    (relay_events world (scan_blocks world from_block to_block).1
       (processed_transactions self)).1 ∧
  trace pass =
    batch_calls world (processed_transactions self) from_block to_block ++
    batch_pause config from_block to_block.
Proof.
  intros Hh Hl Hr. unfold iteration. rewrite Hh, Hl, Hr. cbn zeta.
  set (self1 := {| last_processed_block := Some to_block |}).
  pose proof (_save_state_keeps (state_file_io world) self1) as [H1 H2].
  pose proof (_save_state_trace (state_file_io world) self1) as H3.
  unfold batch_calls, batch_pause. cbn zeta.
  destruct (to_block - from_block <? scan_batch_size config - 1).
  - destruct (sleep_poll_shape config (_save_state (state_file_io world) self1).1
      ([ReadBlockNumber] ++ (scan_blocks world from_block to_block).2 ++
       (relay_events world (scan_blocks world from_block to_block).1
          (processed_transactions self)).2 ++
       (_save_state (state_file_io world) self1).2)) as [-> ->].
    by rewrite H1, H2, H3.
  - simpl. by rewrite H1, H2, H3, app_nil_r.
Qed.

(** The passes that do not: the head read raises, the state has no height,
    or there is nothing confirmed to scan.  They leave the orchestrator as it
    was and only sleep. *)
Lemma iteration_idle config world self :
  block_number world = None ∨ last_processed_block self = None ∨
  (∃ latest_block last,
     block_number world = Some latest_block ∧
     last_processed_block self = Some last ∧
     next_range config latest_block last = None) →
  after (iteration config world self) = self ∧
  ∃ pause, trace (iteration config world self) = ReadBlockNumber :: pause ∧
           Forall (λ a, is_sleep a = true) pause.
Proof.
  unfold iteration. intros [Hh|[Hl|(h & l & Hh & Hl & Hr)]].
  - rewrite Hh. simpl. split; [done|]. eexists. split; [done|].
    by repeat constructor.
  - rewrite Hl. destruct (block_number world); simpl;
      (split; [done|]; eexists; split; [done|]; by repeat constructor).
  - rewrite Hh, Hl, Hr.
    destruct (sleep_poll_shape config self [ReadBlockNumber]) as [-> ->].
    split; [done|]. eexists. split; [done|].
    destruct (sleep_raises _); by repeat constructor.
Qed.

(** Every pass is of one of the two kinds. *)
Lemma iteration_cases config world self :
  (block_number world = None ∨ last_processed_block self = None ∨
   ∃ latest_block last,
     block_number world = Some latest_block ∧
     last_processed_block self = Some last ∧
     next_range config latest_block last = None) ∨
  (∃ latest_block last from_block to_block,
     block_number world = Some latest_block ∧
     last_processed_block self = Some last ∧
     next_range config latest_block last = Some (from_block, to_block)).
Proof.
  destruct (block_number world) as [h|]; [|by left; left].
  destruct (last_processed_block self) as [l|]; [|by left; right; left].
  destruct (next_range config h l) as [[f t]|] eqn:Hr.
  - right. by exists h, l, f, t.
  - left. right. right. by exists h, l.
Qed.

(** A call other than a sleep or the head read is one of a batch. *)
Lemma iteration_action config world self a :
  a ∈ trace (iteration config world self) →
  is_sleep a = false → a ≠ ReadBlockNumber →
  ∃ latest_block last from_block to_block,
    block_number world = Some latest_block ∧
    last_processed_block self = Some last ∧
    next_range config latest_block last = Some (from_block, to_block) ∧
    last_processed_block (after (iteration config world self))
      = Some to_block ∧
    processed_transactions (after (iteration config world self)) =
      (relay_events world (scan_blocks world from_block to_block).1
         (processed_transactions self)).1 ∧
    a ∈ batch_calls world (processed_transactions self) from_block to_block.
Proof.
  intros Hin Hns Hnr.
  destruct (iteration_cases config world self)
    as [Hidle|(h & l & f & t & Hh & Hl & Hr)].
  - destruct (iteration_idle config world self Hidle)
      as (_ & pause & Htr & Hsl).
    rewrite Htr in Hin. apply elem_of_cons in Hin as [->|Hin]; [done|].
    rewrite Forall_forall in Hsl. apply Hsl in Hin. congruence.
  - destruct (iteration_batch config world self h l f t Hh Hl Hr)
      as (Hlast & Hpt & Htr).
    exists h, l, f, t. repeat (split; [done|]).
    rewrite Htr in Hin. apply elem_of_app in Hin as [Hin|Hin]; [done|].
    apply batch_pause_sleeps in Hin. congruence.
Qed.

(** What a pass writes is the state it ends in, and its height is the upper
    bound of the range of that pass. *)
Lemma iteration_writes config world self last txs :
  WriteStateFile last txs ∈ trace (iteration config world self) →
  last = last_processed_block (after (iteration config world self)) ∧
  txs = processed_transactions (after (iteration config world self)) ∧
  ∃ latest_block height from_block to_block,
    block_number world = Some latest_block ∧
    last_processed_block self = Some height ∧
    next_range config latest_block height = Some (from_block, to_block) ∧
    last = Some to_block.
Proof.
  intros Hin.
  apply iteration_action in Hin
    as (h & l & f & t & Hh & Hl & Hr & -> & -> & Hin); [|done..].
  apply batch_calls_inv in Hin as [?|[[? _]|[[? _]|[[= -> ->] _]]]];
    try done.
  split; [done|]. split; [done|]. by exists h, l, f, t.
Qed.

(** ** The scanner on an inverted range *)

(** C10. For every pair of integers with [from_block > to_block],
    [scan_blocks] returns the empty list and makes no call: the ledger's log
    read is not invoked at all. *)
Theorem scan_blocks_inverted_range world from_block to_block :
  from_block > to_block →
  scan_blocks world from_block to_block = ([], []).
Proof.
  intros Hgt. unfold scan_blocks.
  destruct (Z.gtb_spec from_block to_block); [done | lia].
Qed.

Lemma scan_blocks_inverted_range_witness :
  10 > 5 ∧
  scan_blocks (ledger 1000 [lock_event "0xabc" 7] MintSigned) 10 5 = ([], []).
Proof.
  split; [lia | apply scan_blocks_inverted_range; lia].
Defined.

(** ** The scheduled range *)

(** C5. In every pass, a range that reaches the ledger's log read is the
    range computed from the head read in that pass, and its upper bound is at
    most that head minus the configured confirmation depth. *)
Theorem scanned_range_is_confirmed config world self from_block to_block :
  GetAllEntries from_block to_block ∈ trace (iteration config world self) →
  ∃ head last,
    block_number world = Some head ∧
    last_processed_block self = Some last ∧
    next_range config head last = Some (from_block, to_block) ∧
    to_block ≤ head - confirmations_required config.
Proof.
  intros Hin.
  apply iteration_action in Hin
    as (h & l & f & t & Hh & Hl & Hr & _ & _ & Hin); [|done..].
  apply batch_calls_inv in Hin as [?|[[[= -> ->] _]|[[? _]|[? _]]]];
    try discriminate.
  exists h, l. eauto with bridge.
Qed.

Lemma scanned_range_is_confirmed_witness :
  GetAllEntries 601 700 ∈
    trace (iteration default_config (ledger 712 [] MintSigned)
             (at_height 600)) ∧
  ∃ head last,
    block_number (ledger 712 [] MintSigned) = Some head ∧
    last_processed_block (at_height 600) = Some last ∧
    next_range default_config head last = Some (601, 700) ∧
    700 ≤ head - confirmations_required default_config.
Proof.
  assert (Hin : GetAllEntries 601 700 ∈
    trace (iteration default_config (ledger 712 [] MintSigned)
             (at_height 600))).
  { vm_compute. apply list_elem_of_In. simpl. auto. }
  split; [exact Hin|].
  exact (scanned_range_is_confirmed _ _ _ _ _ Hin).
Defined.

(** C6. When there is a confirmed block to scan, the range handed to the
    scanner is [from = last + 1] and
    [to = min (confirmedHead, from + maxBatchSize - 1)], the pass stores that
    [to] as the last processed block, and a non-empty such range is the one
    read from the ledger.  With [last = 500], [confirmedHead = 800] and
    [maxBatchSize = 100] this is [(501, 600)] (the instance below). *)
Theorem range_is_capped config world self head last :
  block_number world = Some head →
  last_processed_block self = Some last →
  last + 1 ≤ head - confirmations_required config →
  let from_block := last + 1 in
  let to_block := Z.min (head - confirmations_required config)
                        (from_block + scan_batch_size config - 1) in
  next_range config head last = Some (from_block, to_block) ∧
  last_processed_block (after (iteration config world self))
    = Some to_block ∧
  (from_block ≤ to_block →
   GetAllEntries from_block to_block ∈ trace (iteration config world self)).
Proof.
  intros Hh Hl Hle from_block to_block.
  assert (Hr : next_range config head last = Some (from_block, to_block)).
  { apply next_range_Some. subst from_block to_block. lia. }
  destruct (iteration_batch config world self head last _ _ Hh Hl Hr)
    as (Hlast & _ & Htr).
  split; [done|]. split; [done|]. intros Hne.
  rewrite Htr. unfold batch_calls. cbn zeta. rewrite scan_blocks_trace.
  destruct (Z.gtb_spec from_block to_block); [lia|].
  apply elem_of_app. left. apply elem_of_app. right.
  apply elem_of_app. left. by left.
Qed.

Lemma range_is_capped_witness :
  let world := ledger 812 [] MintSigned in
  block_number world = Some 812 ∧
  last_processed_block (at_height 500) = Some 500 ∧
  500 + 1 ≤ 812 - confirmations_required default_config ∧
  next_range default_config 812 500 = Some (501, 600) ∧
  last_processed_block
    (after (iteration default_config world (at_height 500))) = Some 600 ∧
  GetAllEntries 501 600
    ∈ trace (iteration default_config world (at_height 500)).
Proof.
  intros world.
  assert (Hconfirmed : 500 + 1 ≤ 812 - confirmations_required default_config)
    by (simpl; lia).
  destruct (range_is_capped default_config world (at_height 500) 812 500
              eq_refl eq_refl Hconfirmed) as (Hrange & Hlast & Hread).
  split; [reflexivity|]. split; [reflexivity|]. split; [exact Hconfirmed|].
  split; [exact Hrange|]. split; [exact Hlast|].
  apply Hread. simpl. lia.
Defined.




(** ** The pause after a batch *)



(** ** A log read that fails *)

(** Whatever the log read raises, [scan_blocks] answers with no events and
    the pass goes on to store the upper bound of the range. *)
Lemma failed_scan_is_checkpointed config world self head last
    from_block to_block err :
  block_number world = Some head →
  last_processed_block self = Some last →
  next_range config head last = Some (from_block, to_block) →
  get_all_entries world from_block to_block = ReadRaises err →
  let pass := iteration config world self in
  (scan_blocks world from_block to_block).1 = [] ∧
  last_processed_block (after pass) = Some to_block ∧
  processed_transactions (after pass) = processed_transactions self.
Proof.
  intros Hh Hl Hr Hfail pass.
  destruct (iteration_batch config world self head last _ _ Hh Hl Hr)
    as (Hlast & Hpt & _).
  assert (Hscan : (scan_blocks world from_block to_block).1 = []).
  { unfold scan_blocks. destruct (from_block >? to_block); [done|].
    rewrite Hfail. by destruct err. }
  split; [done|]. split; [done|].
  subst pass. by rewrite Hpt, Hscan.
Qed.

(** C1. The code at the input of the claim: the state is at height 600, the
    head is 712 with 12 confirmations, so the range is [(601, 700)], and the
    log read raises [BlockNotFound].  The pass ends with the last processed
    block at 700, written to the state file, and the following pass asks for
    [(701, 800)]: the range whose read failed is not read again. *)
Theorem failed_scan_advances_checkpoint :
  let failing := stub 712 (ReadRaises BlockNotFound) MintSigned in
  let pass := iteration default_config failing (at_height 600) in
  next_range default_config 712 600 = Some (601, 700) ∧
  last_processed_block (after pass) = Some 700 ∧
  state_file (after pass) = StateDoc (Some 700) [] ∧
  trace pass = [ReadBlockNumber; GetAllEntries 601 700;
                WriteStateFile (Some 700) ∅] ∧
  trace (iteration default_config (ledger 812 [] MintSigned) (after pass))
  = [ReadBlockNumber; GetAllEntries 701 800; WriteStateFile (Some 800) ∅].
Proof. by vm_compute. Qed.

(** ** The first run *)

(** C3. The code at the input of the claim: no state file, head 1000 and 12
    confirmations.  The prologue stores 988 as the last processed block, so
    every range computed afterwards starts at 989; with the head still at
    1000 the first pass waits, and once the head is 1001 the first range read
    is [(989, 989)].  Block 988 is never read. *)
Theorem first_run_starts_after_confirmed_head :
  run_prologue default_config (Some 1000) (__init__ NoFile)
    = Some (at_height 988) ∧
  (∀ head from_block to_block,
     next_range default_config head 988 = Some (from_block, to_block) →
     from_block = 989) ∧
  trace <$> run default_config (Some 1000) [ledger 1000 [] MintSigned]
    (__init__ NoFile)
    = Some [ReadBlockNumber; Sleep 10] ∧
  trace <$> run default_config (Some 1000) [ledger 1001 [] MintSigned]
    (__init__ NoFile)
    = Some [ReadBlockNumber; GetAllEntries 989 989;
            WriteStateFile (Some 989) ∅; Sleep 10].
Proof.
  split; [by vm_compute|]. split.
  - intros head f t Hr. apply next_range_Some in Hr. lia.
  - split; by vm_compute.
Qed.

(** ** The last processed block over a run *)

Lemma run_loop_app config earlier later self :
  run_loop config (earlier ++ later) self =
  let first := run_loop config earlier self in
  if exited first then first
  else
    let second := run_loop config later (after first) in
    {| after := after second;
       trace := trace first ++ trace second;
       exited := exited second |}.
Proof.
  revert self. induction earlier as [|world earlier IH]; intros self; simpl.
  - by destruct (run_loop config later self).
  - destruct (exited (iteration config world self)) eqn:Hex; simpl.
    + by rewrite Hex.
    + rewrite IH. cbn zeta.
      destruct (exited (run_loop config earlier _)) eqn:Hex'; simpl;
        rewrite ?Hex'; [done|].
      by rewrite (assoc_L (++)).
Qed.

Lemma iteration_monotone config world self last :
  0 ≤ scan_batch_size config →
  last_processed_block self = Some last →
  ∃ last',
    last_processed_block (after (iteration config world self)) = Some last' ∧
    last ≤ last'.
Proof.
  intros Hb Hl.
  destruct (iteration_cases config world self)
    as [Hidle|(h & l & f & t & Hh & Hl' & Hr)].
  - destruct (iteration_idle config world self Hidle) as (-> & _).
    exists last. split; [done | lia].
  - destruct (iteration_batch config world self h l f t Hh Hl' Hr)
      as (-> & _ & _).
    exists t. split; [done|].
    assert (l = last) as -> by congruence.
    eauto with bridge.
Qed.

Lemma run_loop_monotone config worlds self last :
  0 ≤ scan_batch_size config →
  last_processed_block self = Some last →
  ∃ last',
    last_processed_block (after (run_loop config worlds self)) = Some last' ∧
    last ≤ last'.
Proof.
  intros Hb. revert self last.
  induction worlds as [|world worlds IH]; intros self last Hl; simpl.
  - exists last. split; [done | lia].
  - destruct (iteration_monotone config world self last Hb Hl)
      as (mid & Hmid & Hle).
    destruct (exited (iteration config world self)); [by exists mid|].
    destruct (IH _ _ Hmid) as (final & Hfinal & Hle').
    exists final. split; [done | lia].
Qed.

(** C4, amended. With a batch size that is not negative, the last processed
    block never decreases once it is set: at any two points of a run, the
    later value is at least the earlier one, whatever the ledgers and the
    file system answer in the passes in between (events found or not, reads,
    mint attempts and writes failing or not). *)
Theorem last_processed_block_monotone config earlier later self last :
  0 ≤ scan_batch_size config →
  last_processed_block self = Some last →
  ∃ mid final,
    last_processed_block (after (run_loop config earlier self)) = Some mid ∧
    last_processed_block (after (run_loop config (earlier ++ later) self))
      = Some final ∧
    last ≤ mid ∧ mid ≤ final.
Proof.
  intros Hb Hl.
  destruct (run_loop_monotone config earlier self last Hb Hl)
    as (mid & Hmid & Hle).
  destruct (run_loop_monotone config later _ mid Hb Hmid)
    as (final & Hfinal & Hle').
  rewrite run_loop_app. cbn zeta.
  destruct (exited (run_loop config earlier self)).
  - exists mid, mid. repeat split; (done || lia).
  - exists mid, final. done.
Qed.

Lemma last_processed_block_monotone_witness :
  let quiet := ledger 1000 [lock_event "0xabc" 650] MintSigned in
  let failing := stub 712 (ReadRaises RequestTimeout) MintRaises in
  0 ≤ scan_batch_size default_config ∧
  last_processed_block (at_height 600) = Some 600 ∧
  ∃ mid final,
    last_processed_block
      (after (run_loop default_config [failing; unreachable]
                (at_height 600))) = Some mid ∧
    last_processed_block
      (after (run_loop default_config
                ([failing; unreachable] ++ [quiet; failing])
                (at_height 600))) = Some final ∧
    600 ≤ mid ∧ mid ≤ final.
Proof.
  intros quiet failing.
  split; [simpl; lia|]. split; [reflexivity|].
  apply (last_processed_block_monotone default_config
           [failing; unreachable] [quiet; failing] (at_height 600) 600);
    [simpl; lia | reflexivity].
Defined.

(** C4 as stated fails.  [ConfigManager] takes any integer for
    [SCAN_BATCH_SIZE].  With -5, a stored height of 600 and the head at 712,
    the range is capped at [601 + (-5) - 1 = 595]: nothing is read, 595 is
    stored and written to the state file, and the last processed block has
    gone down from 600 to 595. *)
Lemma negative_batch_size_lowers_checkpoint :
  let config := {| confirmations_required := 12; scan_batch_size := -5;
                   poll_interval_seconds := 10 |} in
  let world := ledger 712 [] MintSigned in
  last_processed_block (at_height 600) = Some 600 ∧
  next_range config 712 600 = Some (601, 595) ∧
  iteration config world (at_height 600)
  = {| after := {| last_processed_block := Some 595;
                   processed_transactions := ∅;
                   state_file := StateDoc (Some 595) [] |};
       trace := [ReadBlockNumber; WriteStateFile (Some 595) ∅];
       exited := false |} ∧
  ¬ (∀ config earlier later self last,
       last_processed_block self = Some last →
       ∃ mid final,
         last_processed_block (after (run_loop config earlier self))
           = Some mid ∧
         last_processed_block
           (after (run_loop config (earlier ++ later) self)) = Some final ∧
         last ≤ mid ∧ mid ≤ final).
Proof.
  intros config world.
  split; [done|]. split; [by vm_compute|]. split; [by vm_compute|].
  intros Hclaim.
  destruct (Hclaim config [world] [] (at_height 600) 600 eq_refl)
    as (mid & final & Hmid & _ & Hle & _).
  vm_compute in Hmid. injection Hmid as <-. lia.
Qed.

(** ** Where the processed identifiers come from *)

Lemma relay_event_skips world acc event :
  transactionHash event ∈ acc.1 → relay_event world acc event = acc.
Proof. intros Hin. unfold relay_event. by case_decide. Qed.

Lemma relay_event_submits world acc event :
  transactionHash event ∉ acc.1 →
  let success := process_lock_event (mint world (submit_calls acc.2) event) in
  relay_event world acc event =
    (if success then acc.1 ∪ {[transactionHash event]} else acc.1,
     acc.2 ++ [ProcessLockEvent event success]).
Proof. intros Hin. unfold relay_event. by case_decide. Qed.

Lemma relay_event_grows world acc event :
  acc.1 ⊆ (relay_event world acc event).1.
Proof.
  unfold relay_event. case_decide; [done|].
  destruct (process_lock_event _); simpl; [apply union_subseteq_l | done].
Qed.

Lemma foldl_relay_event_grows world events acc :
  acc.1 ⊆ (foldl (relay_event world) acc events).1.
Proof.
  revert acc. induction events as [|e events IH]; intros acc; simpl; [done|].
  etrans; [apply (relay_event_grows world acc e) | apply IH].
Qed.

Lemma elem_of_relayed_events event made :
  event ∈ relayed_events made ↔ ProcessLockEvent event true ∈ made.
Proof.
  unfold relayed_events. rewrite list_elem_of_omap. split.
  - intros (a & Hin & Ha). by destruct a as [| |e [|]| |]; simplify_eq.
  - intros Hin. by exists (ProcessLockEvent event true).
Qed.

Lemma relayed_events_app made made' :
  relayed_events (made ++ made') = relayed_events made ++ relayed_events made'.
Proof. apply omap_app. Qed.

Lemma relay_event_origin world acc event tx :
  tx ∈ (relay_event world acc event).1 →
  tx ∈ acc.1 ∨
  (transactionHash event = tx ∧
   ProcessLockEvent event true ∈ (relay_event world acc event).2).
Proof.
  unfold relay_event. case_decide as Hseen; [by left|].
  destruct (process_lock_event _); simpl; [|by left].
  intros [Hold|Hnew%elem_of_singleton]%elem_of_union; [by left|].
  right. split; [done|]. apply elem_of_app. right. by left.
Qed.

Lemma foldl_relay_event_keeps world events acc a :
  a ∈ acc.2 → a ∈ (foldl (relay_event world) acc events).2.
Proof.
  intros Hin.
  destruct (foldl_relay_event_trace world events acc) as (more & -> & _).
  apply elem_of_app. by left.
Qed.

Lemma foldl_relay_event_origin world events acc tx :
  tx ∈ (foldl (relay_event world) acc events).1 →
  tx ∈ acc.1 ∨
  ∃ event, event ∈ events ∧ transactionHash event = tx ∧
           ProcessLockEvent event true
             ∈ (foldl (relay_event world) acc events).2.
Proof.
  revert acc. induction events as [|e events IH]; intros acc; simpl.
  - by left.
  - intros [Hin|(e' & Hin & Htx & Htr)]%IH.
    + apply relay_event_origin in Hin as [Hin|[Htx Htr]]; [by left|].
      right. exists e. split; [by left|]. split; [done|].
      by apply foldl_relay_event_keeps.
    + right. exists e'. split; [by right | done].
Qed.

Lemma covered_weaken history history' height height' txs :
  covered history (Some height) txs →
  height ≤ height' →
  covered (history ++ history') (Some height') txs.
Proof.
  intros Hcov Hle tx Hin.
  destruct (Hcov tx Hin) as (e & h & He & Htx & [= <-] & Hbn).
  exists e, height'. split; [apply elem_of_app; by left|].
  split; [done|]. split; [done | lia].
Qed.

Lemma covered_more history history' last txs :
  covered history last txs → covered (history ++ history') last txs.
Proof.
  intros Hcov tx Hin.
  destruct (Hcov tx Hin) as (e & h & He & Htx & Hl & Hbn).
  exists e, h. split; [apply elem_of_app; by left | done].
Qed.

(** One pass keeps the identifiers covered, and what it writes is the state
    it ends in. *)
Lemma iteration_covered config world history self :
  0 ≤ scan_batch_size config →
  honours_range world →
  covered history (last_processed_block self) (processed_transactions self) →
  let pass := iteration config world self in
  covered (history ++ relayed_events (trace pass))
    (last_processed_block (after pass)) (processed_transactions (after pass)).
Proof.
  intros Hb Hledger Hcov pass. subst pass.
  destruct (iteration_cases config world self)
    as [Hidle|(h & l & f & t & Hh & Hl & Hr)].
  - destruct (iteration_idle config world self Hidle) as (-> & _).
    by apply covered_more.
  - destruct (iteration_batch config world self h l f t Hh Hl Hr)
      as (Hlast & Hpt & Htr).
    rewrite Hlast, Hpt. intros tx Hin.
    apply foldl_relay_event_origin in Hin as [Hold|(e & He & Htx & Hsub)].
    + simpl in Hold. rewrite Hl in Hcov.
      eapply (covered_weaken _ _ l t) in Hcov; [by apply Hcov|].
      eauto with bridge.
    + exists e, t.
      apply scan_blocks_events in He as (evs & Hread & He).
      destruct (Hledger f t evs Hread e He) as [_ Hle].
      split; [|done].
      apply elem_of_app. right. apply elem_of_relayed_events.
      rewrite Htr. unfold batch_calls. cbn zeta.
      apply elem_of_app. left. do 2 (apply elem_of_app; right).
      apply elem_of_app. by left.
Qed.

Lemma ledger_honours_range head logs attempt :
  honours_range (ledger head logs attempt).
Proof.
  intros f t evs [= <-] e Hin. by apply list_elem_of_filter in Hin as [? _].
Qed.

(** C8, amended. In a run that starts from a state satisfying the invariant
    (an absent state file does), on a ledger whose log read returns entries
    of the range it is asked for, and with a batch size that is not negative,
    every state written to the state file satisfies the invariant: each
    identifier in the written [processed_transactions] is that of an event
    relayed so far whose block height is at most the written
    [last_processed_block]. *)
Theorem saved_ids_below_saved_height config worlds history self last txs :
  0 ≤ scan_batch_size config →
  Forall honours_range worlds →
  covered history (last_processed_block self) (processed_transactions self) →
  WriteStateFile last txs ∈ trace (run_loop config worlds self) →
  covered (history ++ relayed_events (trace (run_loop config worlds self)))
    last txs.
Proof.
  intros Hb Hledger. revert history self.
  induction Hledger as [|world worlds Hworld _ IH];
    intros history self Hcov Hin; simpl in *.
  - by not_in_trace Hin.
  - pose proof (iteration_covered config world history self Hb Hworld Hcov)
      as Hstep.
    destruct (exited (iteration config world self)).
    + by apply iteration_writes in Hin as (-> & -> & _).
    + simpl in *. rewrite relayed_events_app, (assoc_L (++)).
      apply elem_of_app in Hin as [Hin|Hin].
      * apply iteration_writes in Hin as (-> & -> & _). by apply covered_more.
      * by apply IH.
Qed.

Lemma saved_ids_below_saved_height_witness :
  let world := ledger 712 [lock_event "0xabc" 650] MintSigned in
  0 ≤ scan_batch_size default_config ∧
  Forall honours_range [world] ∧
  covered [] (last_processed_block (at_height 600))
    (processed_transactions (at_height 600)) ∧
  WriteStateFile (Some 700) {[ "0xabc" ]}
    ∈ trace (run_loop default_config [world] (at_height 600)) ∧
  covered
    ([] ++ relayed_events
             (trace (run_loop default_config [world] (at_height 600))))
    (Some 700) {[ "0xabc" ]}.
Proof.
  intros world.
  assert (Hb : 0 ≤ scan_batch_size default_config) by (simpl; lia).
  assert (Hledger : Forall honours_range [world])
    by (constructor; [apply ledger_honours_range | constructor]).
  assert (Hcov : covered [] (last_processed_block (at_height 600))
                   (processed_transactions (at_height 600)))
    by (intros tx Hin; by apply not_elem_of_empty in Hin).
  assert (Hin : WriteStateFile (Some 700) {[ "0xabc" ]}
                  ∈ trace (run_loop default_config [world] (at_height 600))).
  { vm_compute. apply list_elem_of_In. simpl. auto. }
  split; [exact Hb|]. split; [exact Hledger|]. split; [exact Hcov|].
  split; [exact Hin|].
  exact (saved_ids_below_saved_height default_config [world] []
           (at_height 600) (Some 700) {[ "0xabc" ]} Hb Hledger Hcov Hin).
Defined.

(** C8 as stated fails, in three ways.

    With [SCAN_BATCH_SIZE=-5]: the state file holds height 600 and the
    identifier of an event relayed at block 598; the pass caps the range at
    595 and writes 595 together with that identifier.

    With a node that answers the log read of [(601, 700)] with an entry of
    block 9999: the event is relayed and its identifier written with 700.

    With the state file the first case leaves behind, and the default
    configuration: the next pass reads [(596, 596)] and writes 596 with the
    identifier of the event of block 598. *)
Lemma saved_id_above_saved_height :
  let event := lock_event "0xabc" 598 in
  let negative := {| confirmations_required := 12; scan_batch_size := -5;
                     poll_interval_seconds := 10 |} in
  let self := __init__ (StateDoc (Some 600) ["0xabc"]) in
  let world := ledger 712 [event] MintSigned in
  let far := lock_event "0xfar" 9999 in
  let loose := stub 712 (Entries [far]) MintSigned in
  let rewound := __init__ (StateDoc (Some 595) ["0xabc"]) in
  let next := ledger 608 [event] MintSigned in
  (Forall honours_range [world] ∧
   covered [event] (last_processed_block self) (processed_transactions self) ∧
   WriteStateFile (Some 595) {[ "0xabc" ]}
     ∈ trace (run_loop negative [world] self) ∧
   ¬ covered
       ([event] ++ relayed_events (trace (run_loop negative [world] self)))
       (Some 595) {[ "0xabc" ]}) ∧
  (0 ≤ scan_batch_size default_config ∧
   covered [] (last_processed_block (at_height 600))
     (processed_transactions (at_height 600)) ∧
   get_all_entries loose 601 700 = Entries [far] ∧
   WriteStateFile (Some 700) {[ "0xfar" ]}
     ∈ trace (run_loop default_config [loose] (at_height 600)) ∧
   ¬ covered
       ([] ++ relayed_events
                (trace (run_loop default_config [loose] (at_height 600))))
       (Some 700) {[ "0xfar" ]}) ∧
  (0 ≤ scan_batch_size default_config ∧
   Forall honours_range [next] ∧
   state_file (after (run_loop negative [world] self))
     = StateDoc (Some 595) ["0xabc"] ∧
   WriteStateFile (Some 596) {[ "0xabc" ]}
     ∈ trace (run_loop default_config [next] rewound) ∧
   ¬ covered
       ([event] ++ relayed_events
                     (trace (run_loop default_config [next] rewound)))
       (Some 596) {[ "0xabc" ]}).
Proof.
  intros event negative self world far loose rewound next.
  assert (Hno : ∀ (history : list LogReceipt) tx bound,
            (∀ e, e ∈ history → transactionHash e = tx →
                  bound < blockNumber e) →
            ¬ covered history (Some bound) {[ tx ]}).
  { intros history tx bound Habove Hcov.
    destruct (Hcov tx) as (e & h & Hin & Htx & [= <-] & Hle);
      [by apply elem_of_singleton|].
    specialize (Habove e Hin Htx). lia. }
  assert (Hone : ∀ (e e' : LogReceipt) tx bound,
            bound < blockNumber e' →
            e ∈ [e'] ++ [] → transactionHash e = tx → bound < blockNumber e).
  { intros e e' tx bound Hlt Hin _. rewrite app_nil_r in Hin.
    by apply list_elem_of_singleton in Hin as ->. }
  split; [|split].
  - split; [constructor; [apply ledger_honours_range | constructor]|].
    split.
    { intros tx Hin. apply elem_of_list_to_set in Hin.
      apply list_elem_of_singleton in Hin as ->.
      exists event, 600. split; [by left|]. split; [done|].
      split; [done|]. simpl. lia. }
    split; [vm_compute; apply list_elem_of_In; simpl; auto|].
    replace (relayed_events (trace (run_loop negative [world] self)))
      with (@nil LogReceipt) by by vm_compute.
    apply Hno. intros e. apply Hone. simpl. lia.
  - split; [simpl; lia|].
    split; [intros tx Hin; by apply not_elem_of_empty in Hin|].
    split; [done|].
    split; [vm_compute; apply list_elem_of_In; simpl; auto|].
    replace (relayed_events
               (trace (run_loop default_config [loose] (at_height 600))))
      with [far] by by vm_compute.
    apply Hno. intros e Hin _.
    apply list_elem_of_singleton in Hin as ->. simpl. lia.
  - split; [simpl; lia|].
    split; [constructor; [apply ledger_honours_range | constructor]|].
    split; [by vm_compute|].
    split; [vm_compute; apply list_elem_of_In; simpl; auto|].
    replace (relayed_events (trace (run_loop default_config [next] rewound)))
      with (@nil LogReceipt) by by vm_compute.
    apply Hno. intros e. apply Hone. simpl. lia.
Qed.

(** The same invariant in its second form: once a pass scans
    [(from, to)], nothing is written with a height below [to], in that pass
    or in any later one. *)
Lemma writes_not_below config worlds self height last txs :
  0 ≤ scan_batch_size config →
  last_processed_block self = Some height →
  WriteStateFile last txs ∈ trace (run_loop config worlds self) →
  ∃ height', last = Some height' ∧ height ≤ height'.
Proof.
  intros Hb. revert self height.
  induction worlds as [|world worlds IH]; intros self height Hl Hin;
    simpl in *.
  - by not_in_trace Hin.
  - destruct (iteration_monotone config world self height Hb Hl)
      as (mid & Hmid & Hle).
    assert (Hstep : WriteStateFile last txs
                      ∈ trace (iteration config world self) →
                    ∃ height', last = Some height' ∧ height ≤ height').
    { intros (-> & _)%iteration_writes. by exists mid. }
    destruct (exited (iteration config world self)); [by apply Hstep|].
    simpl in Hin. apply elem_of_app in Hin as [Hin|Hin]; [by apply Hstep|].
    destruct (IH _ _ Hmid Hin) as (h' & -> & Hle').
    exists h'. split; [done | lia].
Qed.

Lemma writes_after_batch config world rest self head height
    from_block to_block last txs :
  0 ≤ scan_batch_size config →
  block_number world = Some head →
  last_processed_block self = Some height →
  next_range config head height = Some (from_block, to_block) →
  WriteStateFile last txs ∈ trace (run_loop config (world :: rest) self) →
  ∃ height', last = Some height' ∧ to_block ≤ height'.
Proof.
  intros Hb Hh Hl Hr Hin.
  destruct (iteration_batch config world self head height _ _ Hh Hl Hr)
    as (Hlast & _ & _).
  assert (Hstep : WriteStateFile last txs
                    ∈ trace (iteration config world self) →
                  ∃ height', last = Some height' ∧ to_block ≤ height').
  { intros (-> & _)%iteration_writes. exists to_block. split; [done | lia]. }
  simpl in Hin.
  destruct (exited (iteration config world self)); [by apply Hstep|].
  simpl in Hin. apply elem_of_app in Hin as [Hin|Hin]; [by apply Hstep|].
  eauto using writes_not_below.
Qed.

(** A state saved and loaded again is the state that was saved. *)
Lemma restart_recovers self :
  let restarted := __init__ (state_file (_save_state Written self).1) in
  last_processed_block restarted = last_processed_block self ∧
  processed_transactions restarted = processed_transactions self.
Proof. simpl. split; [done|]. apply list_to_set_elements_L. Qed.

(** ** Marked identifiers are not submitted again *)

Lemma relay_event_fresh world acc event e ok :
  ProcessLockEvent e ok ∈ (relay_event world acc event).2 →
  ProcessLockEvent e ok ∈ acc.2 ∨ transactionHash e ∉ acc.1.
Proof.
  unfold relay_event. case_decide as Hseen; [by left|]. simpl.
  intros [Hin|Hin%list_elem_of_singleton]%elem_of_app; [by left|].
  right. by injection Hin as -> _.
Qed.

Lemma foldl_relay_event_fresh world events acc e ok :
  ProcessLockEvent e ok ∈ (foldl (relay_event world) acc events).2 →
  ProcessLockEvent e ok ∈ acc.2 ∨ transactionHash e ∉ acc.1.
Proof.
  revert acc. induction events as [|e0 events IH]; intros acc; simpl.
  - by left.
  - intros [Hin|Hnew]%IH.
    + by apply relay_event_fresh in Hin.
    + right. intros Hold. apply Hnew. by apply relay_event_grows.
Qed.

Lemma iteration_fresh config world self e ok :
  ProcessLockEvent e ok ∈ trace (iteration config world self) →
  transactionHash e ∉ processed_transactions self.
Proof.
  intros Hin.
  apply iteration_action in Hin
    as (h & l & f & t & _ & _ & _ & _ & _ & Hin); [|done..].
  apply batch_calls_inv in Hin as [?|[[? _]|[[_ Hin]|[? _]]]]; try done.
  apply foldl_relay_event_fresh in Hin as [Hin|Hin]; [|done].
  by not_in_trace Hin.
Qed.

Lemma iteration_grows config world self :
  processed_transactions self
    ⊆ processed_transactions (after (iteration config world self)).
Proof.
  destruct (iteration_cases config world self)
    as [Hidle|(h & l & f & t & Hh & Hl & Hr)].
  - by destruct (iteration_idle config world self Hidle) as (-> & _).
  - destruct (iteration_batch config world self h l f t Hh Hl Hr)
      as (_ & -> & _).
    apply (foldl_relay_event_grows world _ (processed_transactions self, [])).
Qed.

(** Over a whole run, no event whose identifier is in the processed set is
    handed to [process_lock_event]. *)
Lemma run_loop_fresh config worlds self e ok :
  ProcessLockEvent e ok ∈ trace (run_loop config worlds self) →
  transactionHash e ∉ processed_transactions self.
Proof.
  revert self. induction worlds as [|world worlds IH]; intros self Hin;
    simpl in *.
  - by not_in_trace Hin.
  - destruct (exited (iteration config world self));
      [by apply iteration_fresh in Hin|].
    simpl in Hin. apply elem_of_app in Hin as [Hin|Hin].
    + by apply iteration_fresh in Hin.
    + intros Hold. apply (IH _ Hin). by apply iteration_grows.
Qed.

(** C2, as the claim has it, fails: when the mint attempt raises, the
    identifier is not marked, and the second pass over an event with the same
    identifier calls [process_lock_event] a second time.  The same happens
    inside one pass of the loop when a batch holds two logs of one
    transaction. *)
Lemma relay_twice_after_failure_submits_twice :
  let event := lock_event "0xabc" 650 in
  let world := ledger 712 [event; event] MintRaises in
  count_submits "0xabc" (relay_twice world ∅ event event).2 = 2%nat ∧
  count_submits "0xabc" (relay_twice world ∅ event event).2 ≠ 1%nat ∧
  count_submits "0xabc"
    (trace (iteration default_config world (at_height 600))) = 2%nat.
Proof. by vm_compute. Qed.

(** C2, amended. Take the per-event path twice on events with the same
    identifier.  If the identifier is already in the processed set, neither
    pass calls [process_lock_event].  If it is not and the first call
    succeeds, the identifier is marked and [process_lock_event] is called
    exactly once.  If the first call fails, the identifier stays unmarked and
    the second pass calls again.  And in any run of the loop, no event whose
    identifier is in the processed set is passed to [process_lock_event]. *)
Theorem relay_twice_submits_once world processed first second :
  transactionHash first = transactionHash second →
  let tx := transactionHash first in
  let twice := relay_twice world processed first second in
  (tx ∈ processed → twice = (processed, [])) ∧
  (tx ∉ processed → mint world 0 first = MintSigned →
   count_submits tx twice.2 = 1%nat ∧ tx ∈ twice.1) ∧
  (tx ∉ processed → mint world 0 first = MintRaises →
   count_submits tx twice.2 = 2%nat) ∧
  (∀ config worlds self event success,
     tx ∈ processed_transactions self → transactionHash event = tx →
     ProcessLockEvent event success ∉ trace (run_loop config worlds self)).
Proof.
  intros Hsame tx twice. subst tx twice. unfold relay_twice.
  split; [|split; [|split]].
  - intros Hin.
    rewrite (relay_event_skips world (processed, []) first) by done.
    rewrite relay_event_skips; [done|]. simpl. by rewrite <-Hsame.
  - intros Hnotin Hok.
    rewrite (relay_event_submits world (processed, []) first Hnotin).
    cbn [fst snd]. change (submit_calls []) with 0%nat. rewrite Hok.
    cbn [process_lock_event app].
    rewrite relay_event_skips
      by (simpl; rewrite <-Hsame; apply elem_of_union; right;
          by apply elem_of_singleton).
    unfold count_submits. cbn [fst snd].
    rewrite filter_cons_True by (simpl; by rewrite bool_decide_eq_true).
    split; [done|]. apply elem_of_union. right. by apply elem_of_singleton.
  - intros Hnotin Hfail.
    rewrite (relay_event_submits world (processed, []) first Hnotin).
    cbn [fst snd]. change (submit_calls []) with 0%nat. rewrite Hfail.
    cbn [process_lock_event app].
    rewrite relay_event_submits by (simpl; by rewrite <-Hsame).
    unfold count_submits. cbn [fst snd app].
    rewrite !filter_cons_True by (simpl; by rewrite bool_decide_eq_true).
    done.
  - intros config worlds self event success Hin Htx Hcall.
    apply run_loop_fresh in Hcall. by rewrite Htx in Hcall.
Qed.

Lemma relay_twice_submits_once_witness :
  let event := lock_event "0xabc" 650 in
  let world := ledger 712 [event; event] MintSigned in
  transactionHash event = transactionHash event ∧
  (let tx := transactionHash event in
   let twice := relay_twice world ∅ event event in
   (tx ∈ (∅ : gset string) → twice = (∅, [])) ∧
   (tx ∉ (∅ : gset string) → mint world 0 event = MintSigned →
    count_submits tx twice.2 = 1%nat ∧ tx ∈ twice.1) ∧
   (tx ∉ (∅ : gset string) → mint world 0 event = MintRaises →
    count_submits tx twice.2 = 2%nat) ∧
   (∀ config worlds self event' success,
      tx ∈ processed_transactions self → transactionHash event' = tx →
      ProcessLockEvent event' success
        ∉ trace (run_loop config worlds self))) ∧
  count_submits "0xabc" (relay_twice world ∅ event event).2 = 1%nat ∧
  "0xabc" ∈ (relay_twice world ∅ event event).1.
Proof.
  intros event world.
  pose proof (relay_twice_submits_once world ∅ event event eq_refl) as Hall.
  split; [reflexivity|]. split; [exact Hall|].
  destruct Hall as (_ & Hone & _).
  apply Hone; [apply not_elem_of_empty | reflexivity].
Defined.

(** * Further properties of the loop *)

(** ** Each identifier is relayed at most once *)

Lemma successes_app tx made made' :
  successes tx (made ++ made') = (successes tx made + successes tx made')%nat.
Proof. unfold successes. by rewrite filter_app, length_app. Qed.

Lemma successes_not_submit tx made :
  (∀ a, a ∈ made → is_submit a = false) → successes tx made = 0%nat.
Proof.
  unfold successes. induction made as [|a made IH]; intros Hall; [done|].
  rewrite filter_cons_False.
  - apply IH. intros b Hb. apply Hall. by right.
  - assert (Ha : is_submit a = false) by (apply Hall; by left).
    by destruct a.
Qed.

(** What the loop body adds for an identifier [tx]: at most one success,
    none when [tx] is already marked, and a success marks [tx]. *)
Lemma relay_event_successes world acc event tx :
  ∃ more,
    (relay_event world acc event).2 = acc.2 ++ more ∧
    (successes tx more ≤ 1)%nat ∧
    (tx ∈ acc.1 → successes tx more = 0%nat) ∧
    (successes tx more = 1%nat → tx ∈ (relay_event world acc event).1).
Proof.
  unfold relay_event. case_decide as Hseen.
  - exists []. rewrite app_nil_r. unfold successes. simpl.
    split; [done|]. split; [lia|]. split; [done | lia].
  - destruct (process_lock_event _); simpl.
    + exists [ProcessLockEvent event true]. split; [done|].
      unfold successes.
      destruct (decide (transactionHash event = tx)) as [<-|Hne].
      * rewrite filter_cons_True by (simpl; by rewrite bool_decide_eq_true).
        simpl. split; [lia|]. split; [done|]. intros _.
        apply elem_of_union. right. by apply elem_of_singleton.
      * rewrite filter_cons_False
          by (simpl; by rewrite bool_decide_eq_false_2).
        simpl. split; [lia|]. split; [done | lia].
    + exists [ProcessLockEvent event false]. split; [done|].
      unfold successes. rewrite filter_cons_False by done.
      simpl. split; [lia|]. split; [done | lia].
Qed.

Lemma foldl_relay_event_successes world events acc tx :
  ∃ more,
    (foldl (relay_event world) acc events).2 = acc.2 ++ more ∧
    (successes tx more ≤ 1)%nat ∧
    (tx ∈ acc.1 → successes tx more = 0%nat) ∧
    (successes tx more = 1%nat →
     tx ∈ (foldl (relay_event world) acc events).1).
Proof.
  revert acc. induction events as [|e events IH]; intros acc; simpl.
  - exists []. rewrite app_nil_r. change (successes tx []) with 0%nat.
    split; [done|]. split; [lia|]. split; [done | lia].
  - destruct (relay_event_successes world acc e tx)
      as (m1 & Htr1 & Hle1 & Hold1 & Hnew1).
    destruct (IH (relay_event world acc e))
      as (m2 & Htr2 & Hle2 & Hold2 & Hnew2).
    exists (m1 ++ m2). rewrite Htr2, Htr1, <-(assoc_L (++)), successes_app.
    split; [done|].
    assert (Hgrow : tx ∈ acc.1 → tx ∈ (relay_event world acc e).1)
      by (intros ?; by apply relay_event_grows).
    assert (Hkeep : tx ∈ (relay_event world acc e).1 →
                    tx ∈ (foldl (relay_event world)
                            (relay_event world acc e) events).1)
      by (intros ?; by apply foldl_relay_event_grows).
    destruct (decide (successes tx m1 = 1%nat)) as [H1|H1].
    + specialize (Hold2 (Hnew1 H1)). split; [lia|]. split.
      * intros Hin. specialize (Hold1 Hin). lia.
      * intros _. auto.
    + split; [lia|]. split.
      * intros Hin. rewrite Hold1, Hold2 by auto. done.
      * intros Hsum. apply Hnew2. lia.
Qed.

Lemma iteration_successes config world self tx :
  let pass := iteration config world self in
  (successes tx (trace pass) ≤ 1)%nat ∧
  (tx ∈ processed_transactions self → successes tx (trace pass) = 0%nat) ∧
  (successes tx (trace pass) = 1%nat → tx ∈ processed_transactions (after pass)).
Proof.
  intros pass. subst pass.
  destruct (iteration_cases config world self)
    as [Hidle|(h & l & f & t & Hh & Hl & Hr)].
  - destruct (iteration_idle config world self Hidle)
      as (_ & pause & -> & Hsl).
    rewrite Forall_forall in Hsl.
    rewrite successes_not_submit; [split; [lia|]; split; [done | lia]|].
    intros a [->|Hin]%elem_of_cons; [done|].
    apply Hsl in Hin. by destruct a.
  - destruct (iteration_batch config world self h l f t Hh Hl Hr)
      as (_ & -> & ->).
    destruct (foldl_relay_event_successes world (scan_blocks world f t).1
                (processed_transactions self, []) tx)
      as (more & Htr & Hle & Hold & Hnew).
    simpl in Htr. subst more.
    assert (Hsame : successes tx
              (batch_calls world (processed_transactions self) f t ++
               batch_pause config f t) =
            successes tx
              (relay_events world (scan_blocks world f t).1
                 (processed_transactions self)).2).
    { unfold batch_calls. cbn zeta. rewrite !successes_app.
      rewrite (successes_not_submit tx [ReadBlockNumber])
        by (intros a Hin; by not_in_trace Hin; subst).
      rewrite (successes_not_submit tx (scan_blocks world f t).2).
      2:{ rewrite scan_blocks_trace. intros a Hin.
          destruct (f >? t); not_in_trace Hin; by subst. }
      rewrite (successes_not_submit tx (match state_file_io world with
                                        | Written => _ | _ => _ end)).
      2:{ intros a Hin. destruct (state_file_io world);
            not_in_trace Hin; by subst. }
      rewrite (successes_not_submit tx (batch_pause config f t)).
      2:{ intros a Hin%batch_pause_sleeps. by destruct a. }
      simpl. lia. }
    rewrite Hsame. done.
Qed.

Lemma run_loop_grows config worlds self :
  processed_transactions self
    ⊆ processed_transactions (after (run_loop config worlds self)).
Proof.
  revert self. induction worlds as [|world worlds IH]; intros self; simpl;
    [done|].
  destruct (exited (iteration config world self)); simpl.
  - apply iteration_grows.
  - etrans; [apply iteration_grows | apply IH].
Qed.

(** X1. Over a whole run, whatever the ledgers answer, no identifier is
    relayed with success more than once, and an identifier that is in the
    processed set at the start is never relayed with success. *)
Theorem relays_at_most_once config worlds self tx :
  (successes tx (trace (run_loop config worlds self)) ≤ 1)%nat ∧
  (tx ∈ processed_transactions self →
   successes tx (trace (run_loop config worlds self)) = 0%nat).
Proof.
  cut ((successes tx (trace (run_loop config worlds self)) ≤ 1)%nat ∧
       (tx ∈ processed_transactions self →
        successes tx (trace (run_loop config worlds self)) = 0%nat) ∧
       (successes tx (trace (run_loop config worlds self)) = 1%nat →
        tx ∈ processed_transactions (after (run_loop config worlds self)))).
  { tauto. }
  revert self. induction worlds as [|world worlds IH]; intros self; simpl.
  - change (successes tx []) with 0%nat. split; [lia|]. split; [done | lia].
  - destruct (iteration_successes config world self tx)
      as (Hle & Hold & Hnew).
    destruct (exited (iteration config world self)); [done|]. simpl.
    destruct (IH (after (iteration config world self)))
      as (Hle' & Hold' & Hnew').
    rewrite successes_app.
    destruct (decide (successes tx (trace (iteration config world self))
                      = 1%nat)) as [H1|H1].
    + specialize (Hold' (Hnew H1)). split; [lia|]. split.
      * intros Hin. specialize (Hold Hin). lia.
      * intros _. apply (run_loop_grows config worlds). auto.
    + split; [lia|]. split.
      * intros Hin. rewrite Hold by done. apply Hold'.
        by apply iteration_grows.
      * intros Hsum. apply Hnew'. lia.
Qed.

(** ** The processed set is the record of the successful relays *)

Lemma omap_nothing {A B} (f : A → option B) (l : list A) :
  (∀ a, a ∈ l → f a = None) → omap f l = [].
Proof.
  induction l as [|a l IH]; intros Hall; [done|]. simpl.
  rewrite Hall by by left. apply IH. intros b Hb. apply Hall. by right.
Qed.

(** An observation [f] that only looks at [process_lock_event] calls sees
    nothing in a pass without a range, and in a pass with one only the calls
    of the relay loop. *)
Lemma omap_idle_trace {B} (f : Action → option B) config world self :
  (∀ a, is_submit a = false → f a = None) →
  block_number world = None ∨ last_processed_block self = None ∨
  (∃ latest_block last,
     block_number world = Some latest_block ∧
     last_processed_block self = Some last ∧
     next_range config latest_block last = None) →
  omap f (trace (iteration config world self)) = [].
Proof.
  intros Hf Hidle.
  destruct (iteration_idle config world self Hidle)
    as (_ & pause & -> & Hsl).
  rewrite Forall_forall in Hsl. apply omap_nothing.
  intros a [->|Hin]%elem_of_cons; [by apply Hf|].
  apply Hf. apply Hsl in Hin. by destruct a.
Qed.

Lemma omap_batch_trace {B} (f : Action → option B) config world self
    latest_block last from_block to_block :
  (∀ a, is_submit a = false → f a = None) →
  block_number world = Some latest_block →
  last_processed_block self = Some last →
  next_range config latest_block last = Some (from_block, to_block) →
  omap f (trace (iteration config world self)) =
  omap f (relay_events world (scan_blocks world from_block to_block).1
            (processed_transactions self)).2.
Proof.
  intros Hf Hh Hl Hr.
  destruct (iteration_batch config world self _ _ _ _ Hh Hl Hr)
    as (_ & _ & ->).
  unfold batch_calls. cbn zeta. rewrite !omap_app.
  rewrite (omap_nothing f [ReadBlockNumber])
    by (intros a Hin; not_in_trace Hin; subst; by apply Hf).
  rewrite (omap_nothing f (scan_blocks world from_block to_block).2).
  2:{ rewrite scan_blocks_trace. intros a Hin.
      destruct (from_block >? to_block); not_in_trace Hin; subst;
        by apply Hf. }
  rewrite (omap_nothing f (match state_file_io world with
                           | Written => _ | _ => _ end)).
  2:{ intros a Hin. destruct (state_file_io world);
        not_in_trace Hin; subst; by apply Hf. }
  rewrite (omap_nothing f (batch_pause config from_block to_block)).
  2:{ intros a Hin%batch_pause_sleeps. apply Hf. by destruct a. }
  simpl. by rewrite !app_nil_r.
Qed.

Lemma relayed_ids_app made made' :
  relayed_ids (made ++ made') = relayed_ids made ∪ relayed_ids made'.
Proof.
  unfold relayed_ids.
  by rewrite relayed_events_app, fmap_app, list_to_set_app_L.
Qed.

Lemma relayed_ids_nil : relayed_ids [] = ∅.
Proof. apply (list_to_set_nil (C:=gset string)). Qed.

Lemma relayed_ids_submit event success :
  relayed_ids [ProcessLockEvent event success] =
  if success then {[transactionHash event]} else ∅.
Proof.
  destruct success.
  - apply (list_to_set_singleton_L (C:=gset string)).
  - apply (list_to_set_nil (C:=gset string)).
Qed.

Lemma relay_event_marks world acc event :
  ∃ more,
    (relay_event world acc event).2 = acc.2 ++ more ∧
    (relay_event world acc event).1 = acc.1 ∪ relayed_ids more.
Proof.
  unfold relay_event. case_decide as Hseen.
  - exists []. rewrite app_nil_r, relayed_ids_nil, (right_id_L ∅ (∪)). done.
  - eexists [_]. split; [done|]. rewrite relayed_ids_submit. simpl.
    destruct (process_lock_event _); [done|].
    by rewrite (right_id_L ∅ (∪)).
Qed.

Lemma foldl_relay_event_marks world events acc :
  ∃ more,
    (foldl (relay_event world) acc events).2 = acc.2 ++ more ∧
    (foldl (relay_event world) acc events).1 = acc.1 ∪ relayed_ids more.
Proof.
  revert acc. induction events as [|e events IH]; intros acc; simpl.
  - exists []. rewrite app_nil_r, relayed_ids_nil, (right_id_L ∅ (∪)). done.
  - destruct (IH (relay_event world acc e)) as (m2 & -> & ->).
    destruct (relay_event_marks world acc e) as (m1 & -> & ->).
    exists (m1 ++ m2).
    by rewrite <-!(assoc_L (++)), relayed_ids_app, (assoc_L (∪)).
Qed.

Lemma iteration_marks config world self :
  processed_transactions (after (iteration config world self)) =
  processed_transactions self ∪ relayed_ids (trace (iteration config world self)).
Proof.
  assert (Hf : ∀ a, is_submit a = false →
                 match a with
                 | ProcessLockEvent event true => Some event
                 | _ => None
                 end = None) by by intros [| |? []| |].
  destruct (iteration_cases config world self)
    as [Hidle|(h & l & f & t & Hh & Hl & Hr)].
  - unfold relayed_ids, relayed_events.
    rewrite (omap_idle_trace _ config world self Hf Hidle).
    rewrite fmap_nil, list_to_set_nil, (right_id_L ∅ (∪)).
    by destruct (iteration_idle config world self Hidle) as (-> & _).
  - unfold relayed_ids, relayed_events.
    rewrite (omap_batch_trace _ config world self h l f t Hf Hh Hl Hr).
    destruct (iteration_batch config world self h l f t Hh Hl Hr)
      as (_ & -> & _).
    destruct (foldl_relay_event_marks world (scan_blocks world f t).1
                (processed_transactions self, [])) as (more & Hm & Hp).
    unfold relay_events. rewrite Hp. simpl in Hm. by rewrite Hm.
Qed.

(** X2. At the end of any run the processed set is the one the run started
    with, plus exactly the identifiers of the events that
    [process_lock_event] reported as relayed: nothing is ever removed, and
    nothing is marked without a successful relay. *)
Theorem processed_is_initial_plus_relayed config worlds self :
  processed_transactions (after (run_loop config worlds self)) =
  processed_transactions self ∪
  relayed_ids (trace (run_loop config worlds self)).
Proof.
  revert self. induction worlds as [|world worlds IH]; intros self; simpl.
  - by rewrite relayed_ids_nil, (right_id_L ∅ (∪)).
  - pose proof (iteration_marks config world self) as Hstep.
    destruct (exited (iteration config world self)); [done|]. simpl.
    by rewrite IH, Hstep, relayed_ids_app, (assoc_L (∪)).
Qed.

(** ** What is submitted comes from the scan *)

Lemma relay_event_submitted world acc event :
  ∃ more,
    (relay_event world acc event).2 = acc.2 ++ more ∧
    submitted more `sublist_of` [event].
Proof.
  unfold relay_event. case_decide as Hseen.
  - exists []. rewrite app_nil_r. split; [done|]. apply sublist_nil_l.
  - eexists [_]. split; [done|]. simpl. done.
Qed.

Lemma foldl_relay_event_submitted world events acc :
  ∃ more,
    (foldl (relay_event world) acc events).2 = acc.2 ++ more ∧
    submitted more `sublist_of` events.
Proof.
  revert acc. induction events as [|e events IH]; intros acc; simpl.
  - exists []. by rewrite app_nil_r.
  - destruct (IH (relay_event world acc e)) as (m2 & -> & Hsub2).
    destruct (relay_event_submitted world acc e) as (m1 & -> & Hsub1).
    exists (m1 ++ m2). rewrite <-(assoc_L (++)). split; [done|].
    unfold submitted in *. rewrite omap_app.
    change (e :: events) with ([e] ++ events). by apply sublist_app.
Qed.

Lemma submitted_from_batch config world self head last from_block to_block :
  block_number world = Some head →
  last_processed_block self = Some last →
  next_range config head last = Some (from_block, to_block) →
  submitted (trace (iteration config world self))
    `sublist_of` (scan_blocks world from_block to_block).1.
Proof.
  intros Hh Hl Hr. unfold submitted.
  assert (Hf : ∀ a, is_submit a = false →
                 match a with
                 | ProcessLockEvent event _ => Some event
                 | _ => None
                 end = None) by by intros [].
  rewrite (omap_batch_trace _ config world self head last _ _ Hf Hh Hl Hr).
  destruct (foldl_relay_event_submitted world
              (scan_blocks world from_block to_block).1
              (processed_transactions self, [])) as (more & Hm & Hsub).
  unfold relay_events. rewrite Hm. done.
Qed.

(** X3. In a pass that scans [(from, to)], the events handed to
    [process_lock_event] are, in the order of the ledger, some of the events
    that [scan_blocks] returned for that range, and none of them has an
    identifier that was in the processed set when the pass began. *)
Theorem submitted_comes_from_scan config world self head last
    from_block to_block :
  block_number world = Some head →
  last_processed_block self = Some last →
  next_range config head last = Some (from_block, to_block) →
  submitted (trace (iteration config world self))
    `sublist_of` (scan_blocks world from_block to_block).1 ∧
  ∀ event, event ∈ submitted (trace (iteration config world self)) →
    transactionHash event ∉ processed_transactions self.
Proof.
  intros Hh Hl Hr. split.
  - by eapply submitted_from_batch.
  - intros event (a & Hin & Ha)%list_elem_of_omap.
    destruct a as [| |e ok| |]; simplify_eq.
    by apply iteration_fresh in Hin.
Qed.

Lemma submitted_comes_from_scan_witness :
  let first := lock_event "0xabc" 650 in
  let second := lock_event "0xdef" 660 in
  let world := ledger 712 [first; second] MintSigned in
  let self := {| last_processed_block := Some 600;
                 processed_transactions := {[ "0xabc" ]};
                 state_file := NoFile |} in
  block_number world = Some 712 ∧
  last_processed_block self = Some 600 ∧
  next_range default_config 712 600 = Some (601, 700) ∧
  submitted (trace (iteration default_config world self)) = [second] ∧
  (scan_blocks world 601 700).1 = [first; second] ∧
  submitted (trace (iteration default_config world self))
    `sublist_of` (scan_blocks world 601 700).1.
Proof.
  intros first second world self.
  split; [reflexivity|]. split; [reflexivity|]. split; [reflexivity|].
  split; [by vm_compute|]. split; [by vm_compute|].
  apply (submitted_comes_from_scan default_config world self 712 600 601 700);
    reflexivity.
Defined.

(** ** Blocks at or below the checkpoint are not looked at again *)

Lemma iteration_submits_above config world self last event success :
  honours_range world →
  last_processed_block self = Some last →
  ProcessLockEvent event success ∈ trace (iteration config world self) →
  last < blockNumber event.
Proof.
  intros Hledger Hl Hin.
  assert (Hsub : event ∈ submitted (trace (iteration config world self))).
  { apply list_elem_of_omap. by exists (ProcessLockEvent event success). }
  apply iteration_action in Hin
    as (h & l & f & t & Hh & Hl' & Hr & _); [|done..].
  pose proof (submitted_from_batch config world self h l f t Hh Hl' Hr)
    as Hscan.
  eapply elem_of_sublist in Hsub; [|exact Hscan].
  apply scan_blocks_events in Hsub as (evs & Hread & He).
  destruct (Hledger f t evs Hread event He) as [Hlow _].
  apply next_range_Some in Hr. assert (l = last) by congruence. lia.
Qed.

(** X4. Every event that a run hands to [process_lock_event] lies strictly
    above the checkpoint the run started from.  So an event at or below the
    checkpoint is never offered again, also when its relay had failed. *)
Theorem submits_only_above_checkpoint config worlds self last event success :
  0 ≤ scan_batch_size config →
  Forall honours_range worlds →
  last_processed_block self = Some last →
  ProcessLockEvent event success ∈ trace (run_loop config worlds self) →
  last < blockNumber event.
Proof.
  intros Hb Hledger. revert self last.
  induction Hledger as [|world worlds Hworld _ IH]; intros self last Hl Hin;
    simpl in *.
  - by not_in_trace Hin.
  - destruct (iteration_monotone config world self last Hb Hl)
      as (mid & Hmid & Hle).
    destruct (exited (iteration config world self));
      [by eapply iteration_submits_above|].
    simpl in Hin. apply elem_of_app in Hin as [Hin|Hin];
      [by eapply iteration_submits_above|].
    specialize (IH _ _ Hmid Hin). lia.
Qed.

Lemma submits_only_above_checkpoint_witness :
  let old := lock_event "0xold" 650 in
  let new := lock_event "0xnew" 750 in
  let worlds := [ledger 712 [old] MintRaises; ledger 812 [old; new] MintSigned] in
  0 ≤ scan_batch_size default_config ∧
  Forall honours_range worlds ∧
  last_processed_block (at_height 600) = Some 600 ∧
  ProcessLockEvent new true
    ∈ trace (run_loop default_config worlds (at_height 600)) ∧
  submitted (trace (run_loop default_config worlds (at_height 600)))
    = [old; new] ∧
  600 < blockNumber new.
Proof.
  intros old new worlds.
  assert (Hb : 0 ≤ scan_batch_size default_config) by (simpl; lia).
  assert (Hledger : Forall honours_range worlds)
    by (repeat (constructor; [apply ledger_honours_range|]); constructor).
  assert (Hin : ProcessLockEvent new true
                  ∈ trace (run_loop default_config worlds (at_height 600))).
  { vm_compute. repeat first [by left | right]. }
  split; [exact Hb|]. split; [exact Hledger|]. split; [reflexivity|].
  split; [exact Hin|]. split; [by vm_compute|].
  exact (submits_only_above_checkpoint default_config worlds (at_height 600)
           600 new true Hb Hledger eq_refl Hin).
Defined.

(** ** The ranges read follow one another *)

Lemma chained_app last ranges ranges' :
  chained last ranges → chained (chain_end last ranges) ranges' →
  chained last (ranges ++ ranges').
Proof.
  revert last. induction ranges as [|[f t] ranges IH]; intros last; simpl;
    [done|].
  intros (-> & Hle & Hrest) Hnext. split; [done|]. split; [done|].
  by apply IH.
Qed.

Lemma chain_end_app last ranges ranges' :
  chain_end last (ranges ++ ranges') =
  chain_end (chain_end last ranges) ranges'.
Proof. apply foldl_app. Qed.

Lemma reads_app made made' : reads (made ++ made') = reads made ++ reads made'.
Proof. apply omap_app. Qed.

Lemma reads_nothing made :
  (∀ a, a ∈ made → is_sleep a = true ∨ is_submit a = true ∨
                   a = ReadBlockNumber ∨ ∃ last txs, a = WriteStateFile last txs) →
  reads made = [].
Proof.
  intros Hall. apply omap_nothing. intros a Hin.
  destruct (Hall a Hin) as [H|[H|[H|(last & txs & H)]]]; by destruct a.
Qed.

Lemma reads_batch_calls world processed from_block to_block :
  reads (batch_calls world processed from_block to_block) =
  if from_block >? to_block then [] else [(from_block, to_block)].
Proof.
  unfold batch_calls. cbn zeta. rewrite !reads_app, scan_blocks_trace.
  rewrite (reads_nothing (relay_events _ _ _).2)
    by (intros a Ha%relay_events_trace; auto).
  rewrite (reads_nothing (match state_file_io world with
                          | Written => _ | _ => _ end)).
  2:{ intros a Hin. do 3 right.
      destruct (state_file_io world); not_in_trace Hin; try done.
      subst. eauto. }
  destruct (from_block >? to_block); by rewrite !app_nil_r.
Qed.

Lemma iteration_reads config world self last :
  0 ≤ scan_batch_size config →
  last_processed_block self = Some last →
  let pass := iteration config world self in
  chained last (reads (trace pass)) ∧
  last_processed_block (after pass)
    = Some (chain_end last (reads (trace pass))).
Proof.
  intros Hb Hl pass. subst pass.
  destruct (iteration_cases config world self)
    as [Hidle|(h & l & f & t & Hh & Hl' & Hr)].
  - destruct (iteration_idle config world self Hidle)
      as (-> & pause & -> & Hsl).
    rewrite Forall_forall in Hsl.
    rewrite reads_nothing; [done|].
    intros a [->|Hin]%elem_of_cons; auto.
  - destruct (iteration_batch config world self h l f t Hh Hl' Hr)
      as (-> & _ & ->).
    rewrite reads_app, reads_batch_calls.
    rewrite (reads_nothing (batch_pause config f t))
      by (intros a Hin%batch_pause_sleeps; auto).
    assert (l = last) as -> by congruence.
    apply next_range_Some in Hr as (-> & Hc & Ht).
    destruct (Z.gtb_spec (last + 1) t) as [Hgt|Hle]; simpl.
    + split; [done|]. f_equal. lia.
    + done.
Qed.

Lemma run_loop_reads config worlds self last :
  0 ≤ scan_batch_size config →
  last_processed_block self = Some last →
  chained last (reads (trace (run_loop config worlds self))) ∧
  last_processed_block (after (run_loop config worlds self))
    = Some (chain_end last (reads (trace (run_loop config worlds self)))).
Proof.
  intros Hb. revert self last.
  induction worlds as [|world worlds IH]; intros self last Hl; simpl.
  - done.
  - destruct (iteration_reads config world self last Hb Hl) as [Hch Hend].
    destruct (exited (iteration config world self)); [done|]. simpl.
    destruct (IH _ _ Hend) as [Hch' Hend'].
    rewrite reads_app, chain_end_app. split; [by apply chained_app | done].
Qed.

(** X5. The block ranges that a run reads from the ledger follow one
    another without gap or overlap, starting at the block after the
    checkpoint the run began with, and the checkpoint at the end of the run
    is the upper bound of the last range read (the initial checkpoint if
    nothing was read). *)
Theorem reads_are_contiguous config worlds self last :
  0 ≤ scan_batch_size config →
  last_processed_block self = Some last →
  let pass := run_loop config worlds self in
  chained last (reads (trace pass)) ∧
  last_processed_block (after pass)
    = Some (chain_end last (reads (trace pass))).
Proof. intros Hb Hl pass. by apply run_loop_reads. Qed.

Lemma reads_are_contiguous_witness :
  let worlds := [ledger 712 [] MintSigned; unreachable;
                 stub 750 (ReadRaises RequestTimeout) MintSigned;
                 ledger 1000 [] MintSigned] in
  let pass := run_loop default_config worlds (at_height 600) in
  0 ≤ scan_batch_size default_config ∧
  last_processed_block (at_height 600) = Some 600 ∧
  reads (trace pass) = [(601, 700); (701, 738); (739, 838)] ∧
  chained 600 (reads (trace pass)) ∧
  last_processed_block (after pass)
    = Some (chain_end 600 (reads (trace pass))).
Proof.
  intros worlds pass.
  split; [simpl; lia|]. split; [reflexivity|]. split; [by vm_compute|].
  apply (reads_are_contiguous default_config worlds (at_height 600) 600);
    [simpl; lia | reflexivity].
Defined.

(** ** Nothing the collaborators answer ends the loop *)





(** The handler sleeps twice the poll interval: an interval that
    [time.sleep] accepts, but not when doubled, lets the loop run until the
    first exception of a pass, and that one leaves [run]. *)
Remark long_poll_interval_error_leaves_run :
  let config := {| confirmations_required := 12; scan_batch_size := 100;
                   poll_interval_seconds := 5000000000 |} in
  iteration config (ledger 802 [] MintSigned) (at_height 800)
  = {| after := at_height 800;
       trace := [ReadBlockNumber; Sleep 5000000000];
       exited := false |} ∧
  iteration config unreachable (at_height 800)
  = {| after := at_height 800;
       trace := [ReadBlockNumber; Sleep 10000000000];
       exited := true |}.
Proof. by vm_compute. Qed.



(** ** The state file across a restart *)

Lemma iteration_state_file config world self latest_block last
    from_block to_block :
  block_number world = Some latest_block →
  last_processed_block self = Some last →
  next_range config latest_block last = Some (from_block, to_block) →
  state_file (after (iteration config world self)) =
  match state_file_io world with
  | Written =>
      StateDoc (Some to_block)
        (elements (relay_events world (scan_blocks world from_block to_block).1
                     (processed_transactions self)).1)
  | OpenFails => state_file self
  | DumpFails => Garbled
  end.
Proof.
  intros Hh Hl Hr. unfold iteration. rewrite Hh, Hl, Hr. cbn zeta.
  set (self1 := {| last_processed_block := Some to_block |}).
  assert (Hfile : state_file (_save_state (state_file_io world) self1).1 =
                  match state_file_io world with
                  | Written =>
                      StateDoc (Some to_block)
                        (elements (processed_transactions self1))
                  | OpenFails => state_file self
                  | DumpFails => Garbled
                  end) by by destruct (state_file_io world).
  destruct (_ <? _); [|done].
  by destruct (sleep_poll_shape config
                 (_save_state (state_file_io world) self1).1
                 ([ReadBlockNumber] ++ (scan_blocks world from_block to_block).2 ++
                  (relay_events world (scan_blocks world from_block to_block).1
                     (processed_transactions self)).2 ++
                  (_save_state (state_file_io world) self1).2)) as [-> _].
Qed.

(** [__init__] reads the list of identifiers into a set: the order it was
    written in does not matter. *)
Lemma __init___order last written written' :
  written ≡ₚ written' →
  last_processed_block (__init__ (StateDoc last written))
    = last_processed_block (__init__ (StateDoc last written')) ∧
  processed_transactions (__init__ (StateDoc last written))
    = processed_transactions (__init__ (StateDoc last written')).
Proof. intros Hp. simpl. split; [done|]. by apply list_to_set_perm_L. Qed.

(** X7. After a pass whose save went through, the state file holds the last
    processed block and the processed identifiers of the running process, in
    some order; and whatever order they were written in, a process started
    on that file has the last processed block and the processed set of the
    running one. *)
Theorem restart_after_save_is_same_state config world self head last
    from_block to_block written :
  block_number world = Some head →
  last_processed_block self = Some last →
  next_range config head last = Some (from_block, to_block) →
  state_file_io world = Written →
  let running := after (iteration config world self) in
  written ≡ₚ elements (processed_transactions running) →
  let restarted := __init__ (StateDoc (last_processed_block running) written) in
  (∃ order,
     state_file running = StateDoc (last_processed_block running) order ∧
     order ≡ₚ elements (processed_transactions running)) ∧
  last_processed_block restarted = last_processed_block running ∧
  processed_transactions restarted = processed_transactions running.
Proof.
  intros Hh Hl Hr Hio running Hp restarted.
  destruct (iteration_batch config world self head last _ _ Hh Hl Hr)
    as (Hlast & Hpt & _).
  pose proof (iteration_state_file config world self head last _ _ Hh Hl Hr)
    as Hfile.
  rewrite Hio in Hfile. fold running in Hlast, Hpt, Hfile.
  split.
  - exists (elements (processed_transactions running)).
    split; [|done]. by rewrite Hfile, Hlast, Hpt.
  - subst restarted.
    destruct (__init___order (last_processed_block running) _ _ Hp)
      as [-> ->].
    simpl. split; [done|]. apply list_to_set_elements_L.
Qed.

Lemma restart_after_save_is_same_state_witness :
  let world := ledger 712 [lock_event "0xabc" 650; lock_event "0xdef" 651]
                 MintSigned in
  let running := after (iteration default_config world (at_height 600)) in
  let restarted := __init__ (StateDoc (Some 700) ["0xdef"; "0xabc"]) in
  block_number world = Some 712 ∧
  last_processed_block (at_height 600) = Some 600 ∧
  next_range default_config 712 600 = Some (601, 700) ∧
  state_file_io world = Written ∧
  state_file running = StateDoc (Some 700) ["0xabc"; "0xdef"] ∧
  ["0xdef"; "0xabc"] ≡ₚ elements (processed_transactions running) ∧
  last_processed_block restarted = last_processed_block running ∧
  processed_transactions restarted = processed_transactions running.
Proof.
  intros world running restarted.
  assert (Hp : ["0xdef"; "0xabc"] ≡ₚ elements (processed_transactions running)).
  { replace (elements (processed_transactions running))
      with ["0xabc"; "0xdef"] by by vm_compute.
    apply Permutation_swap. }
  split; [reflexivity|]. split; [reflexivity|]. split; [reflexivity|].
  split; [reflexivity|]. split; [by vm_compute|]. split; [exact Hp|].
  exact (proj2 (restart_after_save_is_same_state default_config world
                  (at_height 600) 712 600 601 700 ["0xdef"; "0xabc"]
                  eq_refl eq_refl eq_refl eq_refl Hp)).
Defined.

(** X8. [run] on a state file [{last, txs}]: what [get_web3] raises leaves
    [run] at once; when [get_web3] returns, the loop is entered without the
    head being read, whatever the node would answer.  With a batch size that
    is not negative the ranges read follow one another from [last + 1] on,
    and no event with an identifier of [txs] is ever handed to
    [process_lock_event]. *)
Theorem restart_resumes_after_checkpoint node source config head worlds
    last txs :
  0 ≤ scan_batch_size config →
  let self := __init__ (StateDoc (Some last) txs) in
  let connected := get_web3 node source in
  BridgeOrchestrator_run node source config head worlds self
  = (connected.1,
     match connected.2 with
     | inl _ => inl (Some (run_loop config worlds self))
     | inr error => inr error
     end) ∧
  chained last (reads (trace (run_loop config worlds self))) ∧
  ∀ event success,
    ProcessLockEvent event success ∈ trace (run_loop config worlds self) →
    transactionHash event ∉ txs.
Proof.
  intros Hb self connected. split; [|split].
  - unfold BridgeOrchestrator_run. fold connected.
    by destruct (connected.2).
  - by apply run_loop_reads.
  - intros event success Hin%run_loop_fresh Htx. apply Hin.
    subst self. simpl. by apply elem_of_list_to_set.
Qed.

Lemma restart_resumes_after_checkpoint_witness :
  let known := lock_event "0xabc" 650 in
  let fresh := lock_event "0xdef" 660 in
  let self := __init__ (StateDoc (Some 600) ["0xabc"]) in
  let worlds := [ledger 712 [known; fresh] MintSigned] in
  let checked :=
    {| connector := connector source_connection;
       calls := calls source_connection ++ [IsConnected 0 true] |} in
  let failed :=
    {| connector := {| rpc_url := "http://source"; web3 := Some 4%nat |};
       calls := calls source_connection ++
                [IsConnected 0 false; NewProvider 4; IsConnected 4 false] |} in
  0 ≤ scan_batch_size default_config ∧
  BridgeOrchestrator_run live_node source_connection default_config None
    worlds self
    = (checked, inl (Some (run_loop default_config worlds self))) ∧
  BridgeOrchestrator_run dead_node source_connection default_config None
    worlds self
    = (failed, inr NotConnected) ∧
  reads (trace (run_loop default_config worlds self)) = [(601, 700)] ∧
  submitted (trace (run_loop default_config worlds self)) = [fresh] ∧
  chained 600 (reads (trace (run_loop default_config worlds self))) ∧
  ∀ event success,
    ProcessLockEvent event success
      ∈ trace (run_loop default_config worlds self) →
    transactionHash event ∉ ["0xabc"].
Proof.
  intros known fresh self worlds checked failed.
  assert (Hb : 0 ≤ scan_batch_size default_config) by (simpl; lia).
  split; [exact Hb|].
  destruct (restart_resumes_after_checkpoint live_node source_connection
              default_config None worlds 600 ["0xabc"] Hb)
    as (Hrun & Hchain & Hskip).
  destruct (restart_resumes_after_checkpoint dead_node source_connection
              default_config None worlds 600 ["0xabc"] Hb)
    as (Hraise & _ & _).
  split; [exact Hrun|]. split; [exact Hraise|].
  split; [by vm_compute|]. split; [by vm_compute|].
  split; [exact Hchain | exact Hskip].
Defined.

(** X9. A save that fails is not made up for.  When [open] fails, the state
    file stays as it was, so it no longer tells what the running process
    knows.  When the dump fails after the file was opened for writing, the
    file loads as the empty state: a process started on it has no checkpoint
    and an empty processed set, and begins at the confirmed head like a
    first run. *)
Theorem failed_save_and_restart config world self head last
    from_block to_block :
  block_number world = Some head →
  last_processed_block self = Some last →
  next_range config head last = Some (from_block, to_block) →
  let pass := iteration config world self in
  (state_file_io world = OpenFails →
   state_file (after pass) = state_file self ∧
   last_processed_block (after pass) = Some to_block) ∧
  (state_file_io world = DumpFails →
   __init__ (state_file (after pass)) =
     {| last_processed_block := None;
        processed_transactions := ∅;
        state_file := Garbled |} ∧
   ∀ head', last_processed_block
              <$> run_prologue config (Some head')
                    (__init__ (state_file (after pass)))
            = Some (Some (head' - confirmations_required config))).
Proof.
  intros Hh Hl Hr pass. subst pass.
  pose proof (iteration_state_file config world self head last _ _ Hh Hl Hr)
    as Hfile.
  destruct (iteration_batch config world self head last _ _ Hh Hl Hr)
    as (Hlast & _ & _).
  split; intros Hio; rewrite Hio in Hfile; rewrite Hfile; done.
Qed.

Lemma failed_save_and_restart_witness :
  let world :=
    {| block_number := Some 712;
       get_all_entries := λ _ _, Entries [lock_event "0xabc" 650];
       mint := λ _ _, MintSigned;
       state_file_io := DumpFails |} in
  let self := __init__ (StateDoc (Some 600) ["0x123"]) in
  let pass := iteration default_config world self in
  block_number world = Some 712 ∧
  last_processed_block self = Some 600 ∧
  next_range default_config 712 600 = Some (601, 700) ∧
  processed_transactions (after pass) = {[ "0x123"; "0xabc" ]} ∧
  __init__ (state_file (after pass)) =
    {| last_processed_block := None;
       processed_transactions := ∅;
       state_file := Garbled |} ∧
  last_processed_block
    <$> run_prologue default_config (Some 2000)
          (__init__ (state_file (after pass)))
  = Some (Some 1988).
Proof.
  intros world self pass.
  destruct (failed_save_and_restart default_config world self 712 600 601 700
              eq_refl eq_refl eq_refl) as [_ Hdump].
  destruct (Hdump eq_refl) as [Hinit Hstart].
  split; [reflexivity|]. split; [reflexivity|]. split; [reflexivity|].
  split; [by vm_compute|]. split; [exact Hinit | exact (Hstart 2000)].
Defined.

(** ** A failed log read looks like an empty one *)

(** X10. A pass cannot tell a log read that raises (whichever of the three
    ways) from a log read that returns no entries: with the same head, mint
    outcomes and file system, both passes end in the same state with the
    same calls made. *)
Theorem failed_read_same_as_empty config failing empty self :
  block_number failing = block_number empty →
  mint failing = mint empty →
  state_file_io failing = state_file_io empty →
  (∀ from_block to_block,
     ∃ err, get_all_entries failing from_block to_block = ReadRaises err) →
  (∀ from_block to_block,
     get_all_entries empty from_block to_block = Entries []) →
  iteration config failing self = iteration config empty self.
Proof.
  intros Hh Hm Hio Hfail Hempty.
  assert (Hscan : ∀ f t, scan_blocks failing f t = scan_blocks empty f t).
  { intros f t. unfold scan_blocks. destruct (f >? t); [done|].
    destruct (Hfail f t) as [err ->]. rewrite Hempty. by destruct err. }
  unfold iteration. rewrite Hh, Hio.
  destruct (block_number empty) as [h|]; [|done].
  destruct (last_processed_block self) as [l|]; [|done].
  destruct (next_range config h l) as [[f t]|]; [|done].
  cbn zeta. rewrite Hscan.
  assert (Hnil : (scan_blocks empty f t).1 = []).
  { unfold scan_blocks. destruct (f >? t); [done|]. by rewrite Hempty. }
  by rewrite Hnil.
Qed.

Lemma failed_read_same_as_empty_witness :
  let failing := stub 712 (ReadRaises RequestTimeout) MintSigned in
  let empty := stub 712 (Entries []) MintSigned in
  block_number failing = block_number empty ∧
  mint failing = mint empty ∧
  state_file_io failing = state_file_io empty ∧
  (∀ from_block to_block,
     ∃ err, get_all_entries failing from_block to_block = ReadRaises err) ∧
  (∀ from_block to_block,
     get_all_entries empty from_block to_block = Entries []) ∧
  iteration default_config failing (at_height 600)
  = iteration default_config empty (at_height 600).
Proof.
  intros failing empty.
  assert (Hfail : ∀ from_block to_block,
            ∃ err, get_all_entries failing from_block to_block
                   = ReadRaises err) by (intros; by eexists).
  split; [reflexivity|]. split; [reflexivity|]. split; [reflexivity|].
  split; [exact Hfail|]. split; [reflexivity|].
  exact (failed_read_same_as_empty default_config failing empty
           (at_height 600) eq_refl eq_refl eq_refl Hfail (λ _ _, eq_refl)).
Defined.

(** * ConfigManager *)

Lemma truthy_false environ name :
  truthy (environ !! name) = false ↔ unset_or_empty environ name.
Proof.
  unfold unset_or_empty. destruct (environ !! name) as [text|]; simpl.
  - rewrite negb_false_iff, bool_decide_eq_true. split.
    + intros ->. by right.
    + by intros [?|[= ->]].
  - split; [by left | done].
Qed.

Lemma missing_vars_nil self :
  missing_vars self = [] ↔
  truthy (source_rpc_url self) = true ∧ truthy (dest_rpc_url self) = true ∧
  truthy (source_bridge_address self) = true ∧
  truthy (dest_bridge_address self) = true ∧
  truthy (listener_private_key self) = true.
Proof.
  unfold missing_vars, required_vars.
  destruct (truthy (source_rpc_url self)) eqn:H1,
           (truthy (dest_rpc_url self)) eqn:H2,
           (truthy (source_bridge_address self)) eqn:H3,
           (truthy (dest_bridge_address self)) eqn:H4,
           (truthy (listener_private_key self)) eqn:H5;
    repeat first
      [ rewrite filter_cons_True
          by (unfold getattr; simpl; congruence)
      | rewrite filter_cons_False
          by (unfold getattr; simpl; congruence) ];
    rewrite ?filter_nil; split;
    first [ done | by intros (? & ? & ? & ? & ?) ].
Qed.

Lemma validate_returns self : validate self = None ↔ missing_vars self = [].
Proof. unfold validate. by destruct (missing_vars self). Qed.

(** X11. [ConfigManager()] returns exactly when the three numeric settings
    (each defaulting to its literal when the variable is not set) are
    accepted by [int] and every one of the five required variables is set to
    a non-empty string; the numbers it then holds are the values [int]
    gave. *)
Theorem config_loads_iff int environ :
  let confirmations := default "12" (environ !! "BLOCK_CONFIRMATIONS_REQUIRED") in
  let batch := default "100" (environ !! "SCAN_BATCH_SIZE") in
  let poll := default "10" (environ !! "POLL_INTERVAL_SECONDS") in
  ((∃ self, ConfigManager__init__ int environ = inl self) ↔
   is_Some (int confirmations) ∧ is_Some (int batch) ∧ is_Some (int poll) ∧
   ∀ attribute name, (attribute, name) ∈ attribute_sources →
     ¬ unset_or_empty environ name) ∧
  ∀ self, ConfigManager__init__ int environ = inl self →
    int confirmations = Some (confirmations_required (numbers self)) ∧
    int batch = Some (scan_batch_size (numbers self)) ∧
    int poll = Some (poll_interval_seconds (numbers self)).
Proof.
  intros confirmations batch poll. subst confirmations batch poll.
  unfold ConfigManager__init__.
  destruct (int (default "12" _)) as [c|];
    [|split; [split; [by intros [? ?] | by intros ([? ?] & _)] | done]].
  destruct (int (default "100" _)) as [b|];
    [|split; [split; [by intros [? ?] | by intros (_ & [? ?] & _)] | done]].
  destruct (int (default "10" _)) as [p|];
    [|split; [split; [by intros [? ?] | by intros (_ & _ & [? ?] & _)] | done]].
  cbn zeta.
  set (self := {| source_rpc_url := _ |}).
  assert (Hall : (∀ attribute name,
                    (attribute, name) ∈ attribute_sources →
                    ¬ unset_or_empty environ name) ↔ missing_vars self = []).
  { rewrite missing_vars_nil. subst self. simpl.
    rewrite <-!not_false_iff_true, !truthy_false.
    unfold attribute_sources. split.
    - intros Hall. repeat split; eapply Hall;
        repeat first [by left | right].
    - intros (H1 & H2 & H3 & H4 & H5) attribute name Hin.
      not_in_trace Hin; by simplify_eq. }
  split.
  - rewrite Hall, <-validate_returns. split.
    + intros [self' Hself]. repeat (split; [by eexists|]).
      by destruct (validate self).
    + intros (_ & _ & _ & ->). by exists self.
  - intros self' Hself. destruct (validate self); by simplify_eq.
Qed.

(** X12. When [ConfigManager()] fails in [validate], the message is the
    fixed prefix followed by the names joined with a comma and a space; the
    names are attribute names (not the names of the environment variables),
    in the order of [required_vars], and an attribute is named exactly when
    its variable is not set or is set to the empty string. *)
Theorem missing_variables_are_named int environ message :
  ConfigManager__init__ int environ = inr (MissingVariables message) →
  ∃ names,
    message = "Missing required environment variables: "
              +:+ String.concat ", " names ∧
    names ≠ [] ∧
    names `sublist_of` required_vars ∧
    ∀ attribute name, (attribute, name) ∈ attribute_sources →
      (attribute ∈ names ↔ unset_or_empty environ name).
Proof.
  unfold ConfigManager__init__.
  destruct (int (default "12" _)) as [c|]; [|done].
  destruct (int (default "100" _)) as [b|]; [|done].
  destruct (int (default "10" _)) as [p|]; [|done].
  cbn zeta. set (self := {| source_rpc_url := _ |}).
  unfold validate. destruct (missing_vars self) as [|var rest] eqn:Hmiss;
    [done|].
  intros [= <-]. exists (var :: rest). split; [done|]. split; [done|].
  rewrite <-Hmiss. split; [apply sublist_filter|].
  intros attribute name Hin. unfold missing_vars.
  rewrite list_elem_of_filter, <-truthy_false.
  unfold attribute_sources in Hin.
  not_in_trace Hin; try done; simplify_eq; subst self;
    (split; [by intros [? _] | intros ?; split; [done|]]);
    unfold required_vars; repeat first [by left | right].
Qed.

Lemma missing_variables_are_named_witness :
  let environ : gmap string string :=
    {[ "SOURCE_CHAIN_RPC_URL" := "http://source";
       "DESTINATION_CHAIN_RPC_URL" := "";
       "SOURCE_BRIDGE_CONTRACT_ADDRESS" := "0x01";
       "DESTINATION_BRIDGE_CONTRACT_ADDRESS" := "0x02";
       "SCAN_BATCH_SIZE" := "50" ]} in
  let message :=
    "Missing required environment variables: dest_rpc_url, listener_private_key"
  in
  ConfigManager__init__ decimal_literal environ
    = inr (MissingVariables message) ∧
  ∃ names,
    message = "Missing required environment variables: "
              +:+ String.concat ", " names ∧
    names ≠ [] ∧
    names `sublist_of` required_vars ∧
    ∀ attribute name, (attribute, name) ∈ attribute_sources →
      (attribute ∈ names ↔ unset_or_empty environ name).
Proof.
  intros environ message.
  assert (Hfails : ConfigManager__init__ decimal_literal environ
                   = inr (MissingVariables message)) by by vm_compute.
  split; [exact Hfails|].
  exact (missing_variables_are_named decimal_literal environ message Hfails).
Defined.

(** The defaults: with only the five required variables set, the numbers
    are 12, 100 and 10. *)
Example config_defaults :
  let environ : gmap string string :=
    {[ "SOURCE_CHAIN_RPC_URL" := "http://source";
       "DESTINATION_CHAIN_RPC_URL" := "http://destination";
       "SOURCE_BRIDGE_CONTRACT_ADDRESS" := "0x01";
       "DESTINATION_BRIDGE_CONTRACT_ADDRESS" := "0x02";
       "LISTENER_PRIVATE_KEY" := "0x03" ]} in
  ∃ self, ConfigManager__init__ decimal_literal environ = inl self ∧
          numbers self = default_config.
Proof. eexists. by vm_compute. Qed.

(** * The payload validators *)

Lemma validate_payload_dict entries :
  validate_payload_3156 (PyDict entries) = true ↔
  is_Some (entries !! "id") ∧ is_Some (entries !! "timestamp") ∧
  is_Some (entries !! "data").
Proof.
  simpl. rewrite !andb_true_iff, !bool_decide_eq_true. tauto.
Qed.

(** X13. [validate_payload_3156] accepts exactly the dictionaries that hold
    the keys ['id'], ['timestamp'] and ['data'], whatever they hold under
    them and beside them: an accepted payload stays accepted when any entry
    is added or overwritten or any other key is removed, and is rejected once
    one of the three keys is removed.  [validate_payload_7052] gives the same
    answer on every payload. *)
Theorem validate_payload_accepts payload :
  (validate_payload_3156 payload = true ↔
   ∃ entries, payload = PyDict entries ∧
              {[ "id"; "timestamp"; "data" ]} ⊆ dom entries) ∧
  (∀ entries key value,
     validate_payload_3156 (PyDict entries) = true →
     validate_payload_3156 (PyDict (<[key := value]> entries)) = true) ∧
  (∀ entries key,
     validate_payload_3156 (PyDict entries) = true →
     (validate_payload_3156 (PyDict (delete key entries)) = true ↔
      key ∉ ({[ "id"; "timestamp"; "data" ]} : gset string))) ∧
  validate_payload_7052 payload = validate_payload_3156 payload.
Proof.
  split; [|split; [|split]].
  - split.
    + destruct payload as [| | | | |entries]; try done.
      intros (Hid & Hts & Hdata)%validate_payload_dict.
      exists entries. split; [done|]. intros key.
      rewrite !elem_of_union, !elem_of_singleton, elem_of_dom.
      intros [[->| ->]| ->]; done.
    + intros (entries & -> & Hsub). apply validate_payload_dict.
      repeat split; apply elem_of_dom, Hsub;
        rewrite !elem_of_union, !elem_of_singleton; auto.
  - intros entries key value. rewrite !validate_payload_dict.
    rewrite !lookup_insert_is_Some'. tauto.
  - intros entries key Hvalid. rewrite validate_payload_dict.
    rewrite !lookup_delete_is_Some.
    apply validate_payload_dict in Hvalid as (Hid & Hts & Hdata).
    rewrite !elem_of_union, !elem_of_singleton. split.
    + intros ((Hne1 & _) & (Hne2 & _) & (Hne3 & _)) [[->| ->]| ->]; done.
    + intros Hnot. repeat split; try done; intros ->; tauto.
  - by destruct payload.
Qed.

(** * The FASTA parser *)

Example parse_two_records :
  _parse_fasta_stream
    (code_points <$> ["; comment"; ">seq1 first "; "ACGT "; ""; "  TTGA";
                      ">seq2"; ">seq3"; "GG"])
  = [(code_points "seq1 first", code_points "ACGTTTGA");
     (code_points "seq2", []);
     (code_points "seq3", code_points "GG")].
Proof. by vm_compute. Qed.

(** ** [str.strip] *)

Lemma lstrip_suffix text : ∃ removed, text = removed ++ lstrip text.
Proof.
  induction text as [|c text [removed IH]]; simpl.
  - by exists [].
  - destruct (isspace c).
    + exists (c :: removed). simpl. by rewrite <-IH.
    + by exists [].
Qed.

Lemma lstrip_starts_clean text : starts_clean (lstrip text).
Proof.
  induction text as [|c text IH]; simpl; [done|].
  destruct (isspace c) eqn:Hc; [done|]. simpl. done.
Qed.

Lemma lstrip_id text : starts_clean text → lstrip text = text.
Proof. destruct text as [|c text]; simpl; [done|]. by intros ->. Qed.

Lemma rstrip_prefix text : ∃ removed, text = rstrip text ++ removed.
Proof.
  unfold rstrip. destruct (lstrip_suffix (reverse text)) as [removed Heq].
  exists (reverse removed).
  by rewrite <-reverse_app, <-Heq, reverse_involutive.
Qed.

Lemma starts_clean_prefix text rest :
  starts_clean (text ++ rest) → starts_clean text.
Proof. by destruct text. Qed.

Lemma starts_clean_app text rest :
  text ≠ [] → starts_clean text → starts_clean (text ++ rest).
Proof. by destruct text. Qed.

Lemma strip_tidy text : tidy (strip text).
Proof.
  unfold tidy, strip. split.
  - destruct (rstrip_prefix (lstrip text)) as [removed Heq].
    apply (starts_clean_prefix _ removed). rewrite <-Heq.
    apply lstrip_starts_clean.
  - unfold rstrip. rewrite reverse_involutive. apply lstrip_starts_clean.
Qed.

Lemma tidy_strip text : tidy text → strip text = text.
Proof.
  intros [Hstart Hend]. unfold strip, rstrip.
  rewrite (lstrip_id text Hstart), (lstrip_id _ Hend).
  apply reverse_involutive.
Qed.

Lemma strip_strip text : strip (strip text) = strip text.
Proof. apply tidy_strip, strip_tidy. Qed.

Lemma tidy_nil : tidy [].
Proof. by split. Qed.

Lemma tidy_app text rest :
  text ≠ [] → rest ≠ [] → tidy text → tidy rest → tidy (text ++ rest).
Proof.
  intros Ht Hr [Hts _] [_ Hre]. split.
  - by apply starts_clean_app.
  - rewrite reverse_app. apply starts_clean_app; [|done].
    intros Hnil. apply Hr. by rewrite <-(reverse_involutive rest), Hnil.
Qed.

Lemma tidy_concat parts :
  Forall (λ part, part ≠ [] ∧ tidy part) parts → tidy (concat parts).
Proof.
  induction 1 as [|part parts [Hne Htidy] Hall IH]; simpl;
    [apply tidy_nil|].
  destruct (decide (concat parts = [])) as [->|Hrest].
  - by rewrite app_nil_r.
  - by apply tidy_app.
Qed.

Lemma startswith_gt_concat parts :
  Forall (λ part, part ≠ [] ∧ startswith_gt part = false) parts →
  startswith_gt (concat parts) = false.
Proof.
  destruct 1 as [|[|c part] parts [Hne Hgt] Hall]; simpl; done.
Qed.

(** ** The loop of [_parse_fasta_stream] *)

(** The three things a line can be. *)
Lemma fasta_line_cases st line :
  (strip line = [] ∧ fasta_line st line = st) ∨
  (∃ rest, strip line = 62%N :: rest ∧ is_header_line line = true ∧
     fasta_line st line =
       {| header := Some (strip rest);
          sequence_parts := [];
          yielded := fasta_finish st |}) ∨
  (strip line ≠ [] ∧ is_header_line line = false ∧
   fasta_line st line =
     match header st with
     | Some _ =>
         {| header := header st;
            sequence_parts := sequence_parts st ++ [strip line];
            yielded := yielded st |}
     | None => st
     end).
Proof.
  unfold fasta_line, is_header_line, fasta_finish.
  destruct (strip line) as [|c rest] eqn:Hline; [by left|]. right. simpl.
  destruct (N.eqb_spec c 62) as [->|Hc].
  - left. by exists rest.
  - right. done.
Qed.

Lemma fasta_finish_clean st :
  fasta_clean st → Forall clean_record (fasta_finish st).
Proof.
  intros (Hh & Hparts & Hyielded). unfold fasta_finish.
  apply Forall_app. split; [done|].
  destruct (header st) as [h|]; [|done].
  constructor; [|constructor]. split; [|split]; simpl.
  - by apply Hh.
  - apply tidy_concat. eapply Forall_impl; [exact Hparts|]. by intros ? (? & ? & ?).
  - apply startswith_gt_concat. eapply Forall_impl; [exact Hparts|].
    by intros ? (? & ? & ?).
Qed.

Lemma fasta_line_clean st line :
  fasta_clean st → fasta_clean (fasta_line st line).
Proof.
  intros Hclean.
  destruct (fasta_line_cases st line)
    as [[_ ->]|[(rest & _ & _ & ->)|(Hne & Hgt & ->)]]; [done|..].
  - split; [|split]; simpl.
    + intros h [= <-]. apply strip_tidy.
    + constructor.
    + by apply fasta_finish_clean.
  - destruct (header st) as [h|] eqn:Hheader; [|done].
    destruct Hclean as (Hh & Hparts & Hyielded).
    split; [|split]; simpl; [intros ? [= <-]; by apply Hh | | done].
    apply Forall_app. split; [done|]. constructor; [|constructor].
    split; [done|]. split; [apply strip_tidy|]. exact Hgt.
Qed.

Lemma foldl_fasta_line_clean st stream :
  fasta_clean st → fasta_clean (foldl fasta_line st stream).
Proof.
  revert st. induction stream as [|line stream IH]; intros st Hclean; simpl;
    [done|].
  by apply IH, fasta_line_clean.
Qed.

(** X15. Every record that [_parse_fasta_stream] yields has a header without
    whitespace at either end and a sequence without whitespace at either end
    that does not begin with ['>']: stripping either again changes
    nothing. *)
Theorem fasta_records_are_clean stream h sequence :
  (h, sequence) ∈ _parse_fasta_stream stream →
  strip h = h ∧ strip sequence = sequence ∧ startswith_gt sequence = false.
Proof.
  intros Hin.
  assert (Hclean : Forall clean_record (_parse_fasta_stream stream)).
  { apply fasta_finish_clean, foldl_fasta_line_clean.
    split; [done|]. split; constructor. }
  rewrite Forall_forall in Hclean.
  destruct (Hclean _ Hin) as (Hh & Hs & Hgt). simpl in *.
  split; [by apply tidy_strip|]. split; [by apply tidy_strip | done].
Qed.

Lemma fasta_records_are_clean_witness :
  let stream := code_points <$> ["  > seq1  "; " AC GT "; ">"; "TT "] in
  let h := code_points "seq1" in
  let sequence := code_points "AC GT" in
  (h, sequence) ∈ _parse_fasta_stream stream ∧
  strip h = h ∧ strip sequence = sequence ∧ startswith_gt sequence = false.
Proof.
  intros stream h sequence.
  assert (Hin : (h, sequence) ∈ _parse_fasta_stream stream)
    by (vm_compute; by left).
  split; [exact Hin|].
  exact (fasta_records_are_clean stream h sequence Hin).
Defined.

(** ** Records and header lines *)

Lemma fasta_finish_length_step st line :
  length (fasta_finish (fasta_line st line)) =
  (length (fasta_finish st) + if is_header_line line then 1 else 0)%nat.
Proof.
  destruct (fasta_line_cases st line)
    as [[Hblank ->]|[(rest & _ & -> & ->)|(Hne & -> & ->)]].
  - unfold is_header_line. rewrite Hblank. simpl. lia.
  - unfold fasta_finish at 1. simpl. by rewrite length_app.
  - destruct (header st) eqn:Hh; [|lia].
    unfold fasta_finish. simpl. rewrite Hh, !length_app. simpl. lia.
Qed.

(** X16. [_parse_fasta_stream] yields one record for each line whose stripped
    form starts with ['>'], no more and no fewer: what comes before the first
    such line, blank lines and sequence lines yield nothing of their own. *)
Theorem fasta_one_record_per_header stream :
  length (_parse_fasta_stream stream)
  = length (filter (λ line, is_header_line line = true) stream).
Proof.
  unfold _parse_fasta_stream.
  change (length (filter (λ line, is_header_line line = true) stream))
    with (length (fasta_finish fasta_start) +
          length (filter (λ line, is_header_line line = true) stream))%nat.
  generalize fasta_start as st.
  induction stream as [|line stream IH]; intros st; simpl; [lia|].
  rewrite IH, fasta_finish_length_step.
  destruct (is_header_line line) eqn:Hline.
  - rewrite filter_cons_True by done. simpl. lia.
  - rewrite filter_cons_False by congruence. lia.
Qed.

(** ** How parses compose *)

Lemma fasta_finish_after records st :
  fasta_finish (fasta_after records st) = records ++ fasta_finish st.
Proof. unfold fasta_finish, fasta_after. simpl. by rewrite (assoc_L (++)). Qed.

Lemma fasta_line_after records st line :
  fasta_line (fasta_after records st) line
  = fasta_after records (fasta_line st line).
Proof.
  destruct (fasta_line_cases st line)
    as [[Hblank ->]|[(rest & Hrest & _ & ->)|(Hne & Hgt & ->)]];
    destruct (fasta_line_cases (fasta_after records st) line)
      as [[Hblank' ->]|[(rest' & Hrest' & _ & ->)|(Hne' & Hgt' & ->)]];
    try congruence.
  - rewrite fasta_finish_after. unfold fasta_after. simpl.
    do 2 f_equal. congruence.
  - unfold is_header_line in Hgt'. by rewrite Hrest in Hgt'.
  - unfold is_header_line in Hgt. by rewrite Hrest' in Hgt.
  - simpl. by destruct (header st).
Qed.

Lemma foldl_fasta_line_after records st stream :
  foldl fasta_line (fasta_after records st) stream
  = fasta_after records (foldl fasta_line st stream).
Proof.
  revert st. induction stream as [|line stream IH]; intros st; simpl; [done|].
  by rewrite fasta_line_after, IH.
Qed.

(** A header line starts a new record whatever came before: only the
    records yielded so far are carried over. *)
Lemma fasta_line_header st line :
  is_header_line line = true →
  fasta_line st line
  = fasta_after (fasta_finish st) (fasta_line fasta_start line).
Proof.
  intros Hline.
  destruct (fasta_line_cases st line)
    as [[Hblank _]|[(rest & Hrest & _ & ->)|(_ & Hgt & _)]];
    [unfold is_header_line in Hline; by rewrite Hblank in Hline
    | | congruence].
  destruct (fasta_line_cases fasta_start line)
    as [[Hblank _]|[(rest' & Hrest' & _ & ->)|(_ & Hgt & _)]];
    [congruence | | congruence].
  unfold fasta_after. simpl. rewrite app_nil_r.
  do 2 f_equal. congruence.
Qed.

(** X17. Parsing two streams one after the other, the second of which
    begins with a header line, yields the records of the first followed by
    the records of the second: a record never reaches across a header
    line. *)
Theorem fasta_parse_app first line second :
  is_header_line line = true →
  _parse_fasta_stream (first ++ line :: second)
  = _parse_fasta_stream first ++ _parse_fasta_stream (line :: second).
Proof.
  intros Hline. unfold _parse_fasta_stream.
  rewrite foldl_app. simpl.
  rewrite (fasta_line_header (foldl fasta_line fasta_start first) line Hline).
  by rewrite foldl_fasta_line_after, fasta_finish_after.
Qed.

Lemma fasta_parse_app_witness :
  let first := code_points <$> [">a"; "AC"] in
  let line := code_points " >b " in
  let second := code_points <$> ["GT"; ">c"] in
  is_header_line line = true ∧
  _parse_fasta_stream (first ++ line :: second)
  = [(code_points "a", code_points "AC"); (code_points "b", code_points "GT");
     (code_points "c", [])] ∧
  _parse_fasta_stream (first ++ line :: second)
  = _parse_fasta_stream first ++ _parse_fasta_stream (line :: second).
Proof.
  intros first line second.
  split; [reflexivity|]. split; [by vm_compute|].
  apply (fasta_parse_app first line second). reflexivity.
Defined.

(** ** Lines that do not count *)

Lemma fasta_line_no_header st line :
  header st = None → is_header_line line = false → fasta_line st line = st.
Proof.
  intros Hh Hline.
  destruct (fasta_line_cases st line)
    as [[_ ->]|[(rest & _ & Hgt & _)|(_ & _ & ->)]];
    [done | congruence | by rewrite Hh].
Qed.

(** X18. Whatever stands before the first header line is dropped without a
    trace: the parse is that of the stream from the first header line on, and
    a stream without any header line yields nothing. *)
Theorem fasta_preamble_is_ignored preamble stream :
  Forall (λ line, is_header_line line = false) preamble →
  _parse_fasta_stream (preamble ++ stream) = _parse_fasta_stream stream ∧
  _parse_fasta_stream preamble = [].
Proof.
  intros Hpre.
  assert (Hskip : foldl fasta_line fasta_start preamble = fasta_start).
  { induction Hpre as [|line preamble Hline _ IH]; simpl; [done|].
    by rewrite fasta_line_no_header. }
  unfold _parse_fasta_stream. by rewrite foldl_app, Hskip.
Qed.

Lemma fasta_preamble_is_ignored_witness :
  let preamble := code_points <$> ["ACGT"; ""; "# no header yet"] in
  let stream := code_points <$> [">a"; "AC"] in
  Forall (λ line, is_header_line line = false) preamble ∧
  _parse_fasta_stream (preamble ++ stream)
    = [(code_points "a", code_points "AC")] ∧
  _parse_fasta_stream (preamble ++ stream) = _parse_fasta_stream stream ∧
  _parse_fasta_stream preamble = [].
Proof.
  intros preamble stream.
  assert (Hpre : Forall (λ line, is_header_line line = false) preamble)
    by (repeat constructor).
  split; [exact Hpre|]. split; [by vm_compute|].
  exact (fasta_preamble_is_ignored preamble stream Hpre).
Defined.

Lemma fasta_line_strip st line :
  fasta_line st (strip line) = fasta_line st line.
Proof. unfold fasta_line. by rewrite strip_strip. Qed.

Lemma fasta_line_blank st line : strip line = [] → fasta_line st line = st.
Proof. intros Hblank. unfold fasta_line. by rewrite Hblank. Qed.

(** X19. Only the stripped, non-blank lines matter: stripping every line
    beforehand and leaving out the lines that are blank then gives the same
    records. *)
Theorem fasta_whitespace_is_immaterial stream :
  _parse_fasta_stream (filter (λ line, line ≠ []) (strip <$> stream))
  = _parse_fasta_stream stream.
Proof.
  unfold _parse_fasta_stream. f_equal. generalize fasta_start as st.
  induction stream as [|line stream IH]; intros st; [done|].
  rewrite fmap_cons. simpl.
  destruct (decide (strip line = [])) as [Hblank|Hline].
  - rewrite filter_cons_False by (intros Hne; by apply Hne).
    rewrite (fasta_line_blank st line Hblank). apply IH.
  - rewrite filter_cons_True by done. simpl.
    rewrite fasta_line_strip. apply IH.
Qed.

(** ** One record *)

Lemma foldl_fasta_line_body st h body :
  header st = Some h →
  Forall (λ line, is_header_line line = false) body →
  foldl fasta_line st body =
  {| header := Some h;
     sequence_parts :=
       sequence_parts st ++ filter (λ line, line ≠ []) (strip <$> body);
     yielded := yielded st |}.
Proof.
  intros Hh Hbody. revert st Hh.
  induction Hbody as [|line body Hline _ IH]; intros st Hh.
  - simpl. rewrite app_nil_r. destruct st; simpl in *; by subst.
  - rewrite fmap_cons. simpl.
    destruct (fasta_line_cases st line)
      as [[Hblank ->]|[(rest & _ & Hgt & _)|(Hne & _ & ->)]];
      [|congruence|].
    + rewrite filter_cons_False by (intros Hne; by apply Hne). by apply IH.
    + rewrite Hh, filter_cons_True by done.
      rewrite IH by done. simpl. by rewrite <-(assoc_L (++)).
Qed.

(** X20. A header line followed by lines none of which is a header line
    yields exactly one record: its header is what follows the ['>'],
    stripped, and its sequence is the lines after it, each stripped, the
    blank ones left out, joined without separator. *)
Theorem fasta_single_record line body rest :
  strip line = 62%N :: rest →
  Forall (λ line, is_header_line line = false) body →
  _parse_fasta_stream (line :: body)
  = [(strip rest, concat (filter (λ line, line ≠ []) (strip <$> body)))].
Proof.
  intros Hline Hbody. unfold _parse_fasta_stream. simpl.
  destruct (fasta_line_cases fasta_start line)
    as [[Hblank _]|[(rest' & Hrest' & _ & ->)|(_ & Hgt & _)]].
  - congruence.
  - assert (rest' = rest) as -> by congruence.
    rewrite (foldl_fasta_line_body _ (strip rest) body) by done.
    by unfold fasta_finish.
  - unfold is_header_line in Hgt. by rewrite Hline in Hgt.
Qed.

Lemma fasta_single_record_witness :
  let line := code_points "> seq1 sample " in
  let body := code_points <$> ["ACGT"; "  "; " TT GA "] in
  strip line = 62%N :: code_points " seq1 sample" ∧
  Forall (λ line, is_header_line line = false) body ∧
  _parse_fasta_stream (line :: body)
  = [(code_points "seq1 sample", code_points "ACGTTT GA")] ∧
  _parse_fasta_stream (line :: body)
  = [(strip (code_points " seq1 sample"),
      concat (filter (λ line, line ≠ []) (strip <$> body)))].
Proof.
  intros line body.
  assert (Hline : strip line = 62%N :: code_points " seq1 sample")
    by by vm_compute.
  assert (Hbody : Forall (λ line, is_header_line line = false) body)
    by (repeat constructor).
  split; [exact Hline|]. split; [exact Hbody|]. split; [by vm_compute|].
  exact (fasta_single_record line body _ Hline Hbody).
Defined.

(** [parse_fasta] on a path that does not exist raises, and on one that does
    it parses the lines of the file. *)
Lemma parse_fasta_path files path :
  parse_fasta files (FastaPath path)
  = _parse_fasta_stream <$> files !! path.
Proof. unfold parse_fasta. by destruct (files !! path). Qed.

(** * BlockchainConnector *)

Lemma connect_shape node c :
  let instance := length (calls c) in
  let answer := is_connected node (S instance) in
  web3 (connector (connect node c).1) = Some instance ∧
  rpc_url (connector (connect node c).1) = rpc_url (connector c) ∧
  ∃ tail,
    calls (connect node c).1 =
      calls c ++ [NewProvider instance; IsConnected instance answer] ++ tail ∧
    new_providers tail = 0%nat ∧
    ((connect node c).2 = None →
     answer = true ∧ ∃ id, tail = [ReadChainId instance (Some id)]).
Proof.
  unfold connect. cbn zeta. rewrite length_app. simpl.
  replace (length (calls c) + 1)%nat with (S (length (calls c))) by lia.
  destruct (is_connected node (S (length (calls c)))) eqn:Hanswer; simpl.
  - split; [done|]. split; [done|]. eexists [_]. rewrite <-!(assoc_L (++)).
    split; [done|]. split; [done|].
    destruct (chain_id node _) as [id|]; [|done]. intros _. eauto.
  - split; [done|]. split; [done|]. exists []. rewrite <-!(assoc_L (++)).
    by split.
Qed.

(** X14. When [get_web3] returns, it returns the instance the connector now
    holds, never [None]; the last [is_connected()] made during the call was
    made on that instance and answered [True] (after it comes at most the
    read of the chain id); at most one new instance was created, and none at
    all when the instance held before answered [True]. *)
Theorem get_web3_returns_connected node c c' result :
  get_web3 node c = (c', inl result) →
  ∃ instance before after,
    result = Some instance ∧
    web3 (connector c') = Some instance ∧
    rpc_url (connector c') = rpc_url (connector c) ∧
    calls c' = calls c ++ before ++ [IsConnected instance true] ++ after ∧
    (∀ call, call ∈ after → ∃ id, call = ReadChainId instance (Some id)) ∧
    (new_providers (before ++ [IsConnected instance true] ++ after) ≤ 1)%nat ∧
    (∀ held, web3 (connector c) = Some held →
       is_connected node (length (calls c)) = true →
       instance = held ∧ before = [] ∧ after = []).
Proof.
  unfold get_web3. cbn zeta.
  destruct (web3 (connector c)) as [old|] eqn:Hold.
  - destruct (is_connected node (length (calls c))) eqn:Hanswer.
    + intros [= <- <-]. exists old, [], []. simpl.
      repeat (split; [done|]).
      split; [by intros call ?%elem_of_nil|].
      split; [unfold new_providers; simpl; lia|].
      by intros held [= <-] _.
    + set (c1 := {| connector := connector c |}).
      destruct (connect_shape node c1)
        as (Hweb & Hurl & tail & Hcalls & Htail & Hok).
      destruct (connect node c1).2 as [error|]; [done|].
      intros [= <- <-]. destruct (Hok eq_refl) as (Hans & id & ->).
      exists (length (calls c1)),
             [IsConnected old false; NewProvider (length (calls c1))],
             [ReadChainId (length (calls c1)) (Some id)].
      rewrite Hans in Hcalls. simpl in Hcalls.
      split; [done|]. split; [done|]. split; [done|].
      split; [by rewrite Hcalls, <-(assoc_L (++))|].
      split; [intros call ->%list_elem_of_singleton; by exists id|].
      split; [unfold new_providers; simpl; lia | done].
  - destruct (connect_shape node c)
      as (Hweb & Hurl & tail & Hcalls & Htail & Hok).
    destruct (connect node c).2 as [error|]; [done|].
    intros [= <- <-]. destruct (Hok eq_refl) as (Hans & id & ->).
    rewrite Hans in Hcalls.
    exists (length (calls c)), [NewProvider (length (calls c))],
           [ReadChainId (length (calls c)) (Some id)].
    split; [done|]. split; [done|]. split; [done|]. split; [done|].
    split; [intros call ->%list_elem_of_singleton; by exists id|].
    split; [unfold new_providers; simpl; lia | done].
Qed.

Lemma get_web3_returns_connected_witness :
  let node := {| is_connected := λ step, bool_decide (2 ≤ step)%nat;
                 chain_id := λ _, Some 1 |} in
  let c := {| connector := {| rpc_url := "http://node"; web3 := Some 0%nat |};
              calls := [NewProvider 0] |} in
  let c' := {| connector := {| rpc_url := "http://node"; web3 := Some 2%nat |};
               calls := [NewProvider 0; IsConnected 0 false; NewProvider 2;
                         IsConnected 2 true; ReadChainId 2 (Some 1)] |} in
  get_web3 node c = (c', inl (Some 2%nat)) ∧
  ∃ instance before after,
    Some 2%nat = Some instance ∧
    web3 (connector c') = Some instance ∧
    rpc_url (connector c') = rpc_url (connector c) ∧
    calls c' = calls c ++ before ++ [IsConnected instance true] ++ after ∧
    (∀ call, call ∈ after → ∃ id, call = ReadChainId instance (Some id)) ∧
    (new_providers (before ++ [IsConnected instance true] ++ after) ≤ 1)%nat ∧
    (∀ held, web3 (connector c) = Some held →
       is_connected node (length (calls c)) = true →
       instance = held ∧ before = [] ∧ after = []).
Proof.
  intros node c c'.
  assert (Hcall : get_web3 node c = (c', inl (Some 2%nat))) by by vm_compute.
  split; [exact Hcall|].
  exact (get_web3_returns_connected node c c' (Some 2%nat) Hcall).
Defined.

(** * Progress of a pass *)

(** X21. With a batch size of at least 1, a pass that finds a confirmed block
    above the checkpoint reads exactly one range, of at least one and at
    most [scan_batch_size] blocks, and moves the checkpoint to its upper
    bound: forward by at least one block, by at most [scan_batch_size], and
    never past the confirmed head. *)
Theorem scanning_pass_advances config world self head last :
  1 ≤ scan_batch_size config →
  block_number world = Some head →
  last_processed_block self = Some last →
  last + 1 ≤ head - confirmations_required config →
  ∃ to_block,
    reads (trace (iteration config world self)) = [(last + 1, to_block)] ∧
    last_processed_block (after (iteration config world self))
      = Some to_block ∧
    last + 1 ≤ to_block ∧
    to_block ≤ last + scan_batch_size config ∧
    to_block ≤ head - confirmations_required config.
Proof.
  intros Hb Hh Hl Hc.
  destruct (next_range config head last) as [[f t]|] eqn:Hr;
    [|apply next_range_None in Hr; lia].
  destruct (iteration_batch config world self head last f t Hh Hl Hr)
    as (Hlast & _ & Htr).
  apply next_range_Some in Hr as (-> & _ & Ht).
  exists t. rewrite Htr, reads_app, reads_batch_calls.
  rewrite (reads_nothing (batch_pause config (last + 1) t))
    by (intros a Hin%batch_pause_sleeps; auto).
  destruct (Z.gtb_spec (last + 1) t); [lia|].
  split; [done|]. split; [done|]. lia.
Qed.

Lemma scanning_pass_advances_witness :
  let world := ledger 650 [] MintSigned in
  1 ≤ scan_batch_size default_config ∧
  block_number world = Some 650 ∧
  last_processed_block (at_height 600) = Some 600 ∧
  600 + 1 ≤ 650 - confirmations_required default_config ∧
  reads (trace (iteration default_config world (at_height 600)))
    = [(601, 638)] ∧
  ∃ to_block,
    reads (trace (iteration default_config world (at_height 600)))
      = [(600 + 1, to_block)] ∧
    last_processed_block (after (iteration default_config world (at_height 600)))
      = Some to_block ∧
    600 + 1 ≤ to_block ∧
    to_block ≤ 600 + scan_batch_size default_config ∧
    to_block ≤ 650 - confirmations_required default_config.
Proof.
  intros world.
  assert (Hb : 1 ≤ scan_batch_size default_config) by (simpl; lia).
  assert (Hc : 600 + 1 ≤ 650 - confirmations_required default_config)
    by (simpl; lia).
  split; [exact Hb|]. split; [reflexivity|]. split; [reflexivity|].
  split; [exact Hc|]. split; [by vm_compute|].
  exact (scanning_pass_advances default_config world (at_height 600) 650 600
           Hb eq_refl eq_refl Hc).
Defined.

(** With [SCAN_BATCH_SIZE=0], which [ConfigManager] accepts, a pass with
    confirmed blocks ahead reads nothing, leaves the checkpoint where it is
    and does not sleep. *)
Remark zero_batch_size_spins :
  let config := {| confirmations_required := 12; scan_batch_size := 0;
                   poll_interval_seconds := 10 |} in
  iteration config (ledger 712 [lock_event "0xabc" 650] MintSigned)
    (at_height 600)
  = {| after := {| last_processed_block := Some 600;
                   processed_transactions := ∅;
                   state_file := StateDoc (Some 600) [] |};
       trace := [ReadBlockNumber; WriteStateFile (Some 600) ∅];
       exited := false |}.
Proof. by vm_compute. Qed.
